(** * Deleting an element from an array/vector pair

    A shallow embedding of
    [C++/16 - Vectors/2 -Delete element from vector-array/src/main.cpp]:
    the class [func] with its three member functions [input], [del_elem]
    and [output], run against the caller's [int] array and the two console
    streams.

    Conventions of the embedding.
    - [int] values are kept as [Z].  [size_t] and [unsigned long long] are
      64 bits wide (LP64); their wrap-around is written out with [wrap64].
    - The caller's array ([int array[10]] in [main]) and [vector1] are
      lists; an access outside the list is the C++ program's undefined
      behaviour and ends the run with [Undefined].
    - [cin] is the list of the [int] values still to be extracted;
      extraction at the end of the stream leaves the target untouched.  A
      numeral outside the range of [int], which the library would clamp
      while putting the stream in a failed state, is not a value of such a
      stream: every statement that depends on the values extracted assumes
      [is_int] of them.  [cout] is the list of items printed so far.
    - The array is a list of definite values.  The array of [main] is not
      initialised, so statements about [main] are made for streams that
      fill all ten cells before any is read.
    - [log] is a ghost trace of every element access, so that statements
      such as "no element is written" can be made about the run itself. *)

From Stdlib Require Import ZArith Lia.
From stdpp Require Import base list strings.

Local Open Scope Z_scope.

(** ** Machine arithmetic *)

Definition wrap64 (z : Z) : Z := z mod 2 ^ 64.

Definition is_int (z : Z) : Prop := - 2 ^ 31 <= z < 2 ^ 31.

(** ** Program state *)

(** An item sent to [cout]. *)
Inductive out : Type :=
  | OStr (s : string)
  | OInt (z : Z)
  | OEndl.

(** One access to element storage (ghost). *)
Inductive access : Type :=
  | ArrRead (i : Z)
  | ArrWrite (i : Z)
  | VecRead (i : Z)
  | VecWrite (i : Z)
  | VecPush.

(** The data members of [class func]. *)
Record func : Type := Func {
  vector1 : list Z;
  position : Z;
  size : Z
}.

(** A default-constructed object: [vector1] empty, [position = 0],
    [size = 10]. *)
Definition new_func : func := Func [] 0 10.

(** The object, the array handed to its member functions, and the console. *)
Record world : Type := World {
  self : func;
  arr : list Z;
  cin : list Z;
  cout : list out;
  log : list access
}.

(** [l[i]] for a [size_t] index; [None] outside the storage. *)
Definition idx (l : list Z) (i : Z) : option Z :=
  if (0 <=? i) && (i <? Z.of_nat (length l)) then l !! Z.to_nat i else None.

(** ** The monad of member functions: state, undefined behaviour, fuel *)

Inductive outcome (A : Type) : Type :=
  | Done (a : A)
  | Undefined
  | OutOfFuel.
Arguments Done {A} a.
Arguments Undefined {A}.
Arguments OutOfFuel {A}.

Definition M (A : Type) : Type := world -> outcome (A * world).

#[global] Instance M_ret : MRet M := fun A a w => Done (a, w).

#[global] Instance M_bind : MBind M := fun A B f m w =>
  match m w with
  | Done (a, w') => f a w'
  | Undefined => Undefined
  | OutOfFuel => OutOfFuel
  end.

Definition touch (a : access) (w : world) : world :=
  World (self w) (arr w) (cin w) (cout w) (log w ++ [a]).

(** [arr[i]] as an rvalue. *)
Definition arr_get (i : Z) : M Z := fun w =>
  match idx (arr w) i with
  | Some v => Done (v, touch (ArrRead i) w)
  | None => Undefined
  end.

(** [arr[i] = v]. *)
Definition arr_set (i v : Z) : M unit := fun w =>
  match idx (arr w) i with
  | Some _ =>
      Done (tt, touch (ArrWrite i)
                  (World (self w) (<[Z.to_nat i := v]> (arr w)) (cin w) (cout w) (log w)))
  | None => Undefined
  end.

(** [vector1[i]] as an rvalue ([operator[]] is unchecked). *)
Definition vec_get (i : Z) : M Z := fun w =>
  match idx (vector1 (self w)) i with
  | Some v => Done (v, touch (VecRead i) w)
  | None => Undefined
  end.

(** [vector1[i] = v]. *)
Definition vec_set (i v : Z) : M unit := fun w =>
  match idx (vector1 (self w)) i with
  | Some _ =>
      Done (tt, touch (VecWrite i)
                  (World (Func (<[Z.to_nat i := v]> (vector1 (self w)))
                               (position (self w)) (size (self w)))
                         (arr w) (cin w) (cout w) (log w)))
  | None => Undefined
  end.

(** [vector1.push_back(v)]. *)
Definition vec_push_back (v : Z) : M unit := fun w =>
  Done (tt, touch VecPush
              (World (Func (vector1 (self w) ++ [v]) (position (self w)) (size (self w)))
                     (arr w) (cin w) (cout w) (log w))).

(** [cin >> arr[i]]: the next [int] of the stream is stored in [arr[i]];
    at the end of the stream the cell keeps its value.  (The stream holds
    [int]s, see [is_int]: the clamping of an overflowing numeral is not
    modelled.) *)
Definition cin_arr (i : Z) : M unit := fun w =>
  match idx (arr w) i with
  | Some _ =>
      match cin w with
      | x :: rest =>
          Done (tt, touch (ArrWrite i)
                      (World (self w) (<[Z.to_nat i := x]> (arr w)) rest (cout w) (log w)))
      | [] => Done (tt, w)
      end
  | None => Undefined
  end.

(** [cin >> position], for a stream of [int]s as in [cin_arr]. *)
Definition cin_position : M unit := fun w =>
  match cin w with
  | x :: rest =>
      Done (tt, World (Func (vector1 (self w)) x (size (self w)))
                      (arr w) rest (cout w) (log w))
  | [] => Done (tt, w)
  end.

Definition get_position : M Z := fun w => Done (position (self w), w).

(** [size--] on an [unsigned long long]. *)
Definition size_decr : M unit := fun w =>
  Done (tt, World (Func (vector1 (self w)) (position (self w)) (wrap64 (size (self w) - 1)))
                  (arr w) (cin w) (cout w) (log w)).

(** [cout << item]. *)
Definition cout_put (o : out) : M unit := fun w =>
  Done (tt, World (self w) (arr w) (cin w) (cout w ++ [o]) (log w)).

(** [for (size_t i = i0; cond; i++) body].  Every loop of the program
    indexes element storage at its counter, so it cannot make more
    iterations than that storage has cells without reaching [Undefined];
    the callers pass one more than that as [fuel]. *)
Fixpoint for_ (fuel : nat) (i : Z) (cond : Z -> world -> bool) (body : Z -> M unit)
  : M unit := fun w =>
  if cond i w then
    match fuel with
    | O => OutOfFuel
    | S fuel' =>
        match body i w with
        | Done (_, w') => for_ fuel' (wrap64 (i + 1)) cond body w'
        | Undefined => Undefined
        | OutOfFuel => OutOfFuel
        end
    end
  else Done (tt, w).

Definition arr_fuel : M nat := fun w => Done (S (length (arr w)), w).
Definition vec_fuel : M nat := fun w => Done (S (length (vector1 (self w))), w).

(** ** The member functions of [func] *)

(** The loop condition [i < size] of [input] and [output]. *)
Definition input_cond (i : Z) (w : world) : bool := i <? size (self w).

(** The loop condition [i < size-1] of [del_elem], in 64-bit unsigned
    arithmetic. *)
Definition shift_cond (i : Z) (w : world) : bool := i <? wrap64 (size (self w) - 1).

(** Body of the loop of [input]. *)
Definition input_step (i : Z) : M unit :=
  cin_arr i;;
  v ← arr_get i;
  vec_push_back v.

(** [void input(int arr[])]. *)
Definition input : M unit :=
  fuel ← arr_fuel;
  for_ fuel 0 input_cond input_step.

(** Body of the loop of [del_elem]. *)
Definition shift_step (i : Z) : M unit :=
  a ← arr_get (wrap64 (i + 1));
  arr_set i a;;
  v ← vec_get (wrap64 (i + 1));
  vec_set i v.

(** [void del_elem(int arr[])]. *)
Definition del_elem : M unit :=
  cout_put (OStr "Select element to delete.");;
  cout_put OEndl;;
  cin_position;;
  p ← get_position;
  fuel ← arr_fuel;
  for_ fuel (wrap64 p) shift_cond shift_step;;
  size_decr.

(** Bodies of the two loops of [output]. *)
Definition print_arr (i : Z) : M unit :=
  cout_put (OStr "Array: ");;
  v ← arr_get i;
  cout_put (OInt v).

Definition print_vec (i : Z) : M unit :=
  cout_put (OStr "Vectyor:");;
  v ← vec_get i;
  cout_put (OInt v).

(** [void output(int arr[])]. *)
Definition output : M unit :=
  cout_put (OStr "Array:");;
  cout_put OEndl;;
  fuel ← arr_fuel;
  for_ fuel 0 input_cond print_arr;;
  cout_put (OStr "Vector:");;
  cout_put OEndl;;
  fuel' ← vec_fuel;
  for_ fuel' 0 input_cond print_vec.

(** [int main()]: the three calls on [int array[10]]. *)
Definition main : M unit :=
  input;;
  del_elem;;
  output.

(** ** Runs of several calls on the same object and array *)

(** [n] calls of the same member function in a row. *)
Fixpoint repeat_m (n : nat) (m : M unit) : M unit :=
  match n with
  | O => mret tt
  | S n' => m;; repeat_m n' m
  end.

Inductive op : Type :=
  | OpInput
  | OpDelElem
  | OpOutput.

Definition exec (o : op) : M unit :=
  match o with
  | OpInput => input
  | OpDelElem => del_elem
  | OpOutput => output
  end.

Fixpoint run (ops : list op) : M unit :=
  match ops with
  | [] => mret tt
  | o :: ops' => exec o;; run ops'
  end.

(** The number of [del_elem] calls in a run. *)
Fixpoint removals (ops : list op) : Z :=
  match ops with
  | [] => 0
  | OpDelElem :: ops' => 1 + removals ops'
  | _ :: ops' => removals ops'
  end.

(** ** States *)

(** The capacity of the array [main] hands to the object ([int array[10]]),
    which is also the initial value of [size]. *)
Definition capacity : Z := 10.

(** A fresh object, handed an array whose cells hold [init], with the
    integers [stream] waiting on [cin].  This is the state in which [main]
    calls [input], where [init] stands for whatever the uninitialised
    array happens to hold: what is stated about [main] holds for every
    [init] and reads no cell that [input] has not written. *)
Definition start (init stream : list Z) : world :=
  World new_func init stream [] [].

(** The ten integers of scenario 1 of the specification. *)
Definition elems : list Z := [5; 3; 8; 1; 9; 2; 7; 4; 6; 0].

(** The state [input] leaves when it reads [elems], with [stream] still
    waiting on [cin] (console output and trace cleared). *)
Definition populated_with (stream : list Z) : world :=
  World (Func elems 0 10) elems stream [] [].

(** Scenario 2: position 3 is typed next, then position 8. *)
Definition populated : world := populated_with [3; 8].

(** The same state with [stream] typed on the console next. *)
Definition with_cin (stream : list Z) (w : world) : world :=
  World (self w) (arr w) stream (cout w) (log w).

(** ** Derived notions *)

(** The valid elements: the cells [[0, size)] of the array and of the
    vector, which is what [output] prints. *)
Definition snapshot (w : world) : list Z :=
  take (Z.to_nat (size (self w))) (arr w).

Definition snapshot_vec (w : world) : list Z :=
  take (Z.to_nat (size (self w))) (vector1 (self w)).

(** [size] fits its type. *)
Definition typed (w : world) : Prop := 0 <= size (self w) < 2 ^ 64.

(** The cells [[0, size)] exist in both stores. *)
Definition stored (w : world) : Prop :=
  typed w /\
  size (self w) <= Z.of_nat (length (arr w)) /\
  size (self w) <= Z.of_nat (length (vector1 (self w))).

(** The two stores agree on every valid index. *)
Definition lockstep (w : world) : Prop :=
  forall i : Z, 0 <= i < size (self w) ->
    exists v : Z, idx (arr w) i = Some v /\ idx (vector1 (self w)) i = Some v.

(** Positions that are each valid at the time they are used, for a
    sequence that starts with [n] elements. *)
Fixpoint valid_positions (n : Z) (ps : list Z) : Prop :=
  match ps with
  | [] => True
  | p :: ps' => 0 <= p < n /\ valid_positions (n - 1) ps'
  end.

(** The elements left after deleting at the positions [ps] in turn. *)
Definition delete_all (ps : list Z) (l : list Z) : list Z :=
  foldl (fun acc p => delete (Z.to_nat p) acc) l ps.

(** The items [del_elem] prints before it reads the position. *)
Definition prompt : list out := [OStr "Select element to delete."; OEndl].

(** What [output] prints for the array elements [a] and the vector
    elements [v]. *)
Definition render (a v : list Z) : list out :=
  [OStr "Array:"; OEndl] ++ flat_map (fun x => [OStr "Array: "; OInt x]) a ++
  [OStr "Vector:"; OEndl] ++ flat_map (fun x => [OStr "Vectyor:"; OInt x]) v.

(** ** The loops as list functions *)

(** What the shifting loop of [del_elem] does to one store in [k]
    iterations from index [i]. *)
Fixpoint shifts (k i : nat) (l : list Z) : list Z :=
  match k with
  | O => l
  | S k' =>
      match l !! S i with
      | Some v => shifts k' (S i) (<[i := v]> l)
      | None => l
      end
  end.

(** The accesses of [k] iterations of that loop from index [i]. *)
Fixpoint shift_log (k : nat) (i : Z) : list access :=
  match k with
  | O => []
  | S k' =>
      [ArrRead (i + 1); ArrWrite i; VecRead (i + 1); VecWrite i] ++ shift_log k' (i + 1)
  end.

(** What the loop of [input] does to the array in [k] iterations from
    index [i], with [s] waiting on [cin]. *)
Fixpoint fill (k i : nat) (s l : list Z) : list Z :=
  match k with
  | O => l
  | S k' =>
      match s with
      | x :: s' => fill k' (S i) s' (<[i := x]> l)
      | [] => l
      end
  end.

(** The accesses of [k] iterations of that loop from index [i]. *)
Fixpoint input_log (k : nat) (i : Z) (s : list Z) : list access :=
  match k with
  | O => []
  | S k' =>
      match s with
      | [] => []
      | _ :: _ => [ArrWrite i]
      end ++ [ArrRead i; VecPush] ++ input_log k' (i + 1) (tail s)
  end.

(** [k] consecutive reads from index [i]. *)
Fixpoint reads (mk : Z -> access) (k : nat) (i : Z) : list access :=
  match k with
  | O => []
  | S k' => mk i :: reads mk k' (i + 1)
  end.

(** ** Notions for whole-program statements *)

(** The position [del_elem] works with: the next integer on [cin], or the
    old value of [position] at the end of the stream. *)
Definition next_position (w : world) : Z := hd (position (self w)) (cin w).

(** The valid elements [l] of a sequence of [n >= 1] elements after one
    [del_elem] with position [p]: index [p] deleted when [p] is in range,
    the last element dropped otherwise. *)
Definition after_removal (n p : Z) (l : list Z) : list Z :=
  if (0 <=? p) && (p <? n) then delete (Z.to_nat p) l else take (Z.to_nat (n - 1)) l.

(** The access [a] is to an index in [[lo, hi)]. *)
Definition access_within (lo hi : Z) (a : access) : Prop :=
  match a with
  | ArrRead i | ArrWrite i | VecRead i | VecWrite i => lo <= i < hi
  | VecPush => False
  end.

(** If [a] is a write, it is to an index in [[lo, hi)]. *)
Definition write_within (lo hi : Z) (a : access) : Prop :=
  match a with
  | ArrWrite i | VecWrite i => lo <= i < hi
  | ArrRead _ | VecRead _ => True
  | VecPush => False
  end.

(** ** Arithmetic and indexing lemmas *)

Lemma wrap64_small (z : Z) : 0 <= z < 2 ^ 64 -> wrap64 z = z.
Proof. intros H. unfold wrap64. apply Z.mod_small. exact H. Qed.

Lemma wrap64_range (z : Z) : 0 <= wrap64 z < 2 ^ 64.
Proof. unfold wrap64. apply Z.mod_pos_bound. lia. Qed.

Lemma wrap64_neg (z : Z) : - 2 ^ 64 <= z < 0 -> wrap64 z = z + 2 ^ 64.
Proof.
  intros H. unfold wrap64.
  symmetry. apply (Z.mod_unique_pos z (2 ^ 64) (-1) (z + 2 ^ 64)); lia.
Qed.

Lemma idx_nat (l : list Z) (j : nat) :
  (j < length l)%nat -> idx l (Z.of_nat j) = l !! j.
Proof.
  intros H. unfold idx.
  assert (Hc : (0 <=? Z.of_nat j) && (Z.of_nat j <? Z.of_nat (length l)) = true).
  { apply andb_true_iff. split; [apply Z.leb_le | apply Z.ltb_lt]; lia. }
  rewrite Hc, Nat2Z.id. reflexivity.
Qed.

Lemma idx_Some (l : list Z) (i v : Z) :
  idx l i = Some v -> 0 <= i < Z.of_nat (length l) /\ l !! Z.to_nat i = Some v.
Proof.
  unfold idx. destruct ((0 <=? i) && (i <? Z.of_nat (length l))) eqn:Hc; [| discriminate].
  apply andb_true_iff in Hc as [H1 H2].
  apply Z.leb_le in H1. apply Z.ltb_lt in H2. intros H. split; [lia | exact H].
Qed.

Lemma idx_None (l : list Z) (i : Z) :
  Z.of_nat (length l) <= i -> idx l i = None.
Proof.
  intros H. unfold idx.
  destruct (Z.ltb_spec i (Z.of_nat (length l))); [lia |].
  rewrite andb_false_r. reflexivity.
Qed.

(** ** The shifting loop on one store *)

Lemma length_shifts (k i : nat) (l : list Z) : length (shifts k i l) = length l.
Proof.
  revert i l. induction k as [| k IH]; intros i l; simpl; [reflexivity |].
  destruct (l !! S i); [| reflexivity].
  rewrite IH, length_insert. reflexivity.
Qed.

Lemma lookup_shifts (k i : nat) (l : list Z) (j : nat) :
  (i + k < length l)%nat ->
  shifts k i l !! j =
    if decide (i <= j < i + k)%nat then l !! S j else l !! j.
Proof.
  revert i l. induction k as [| k IH]; intros i l Hlen; simpl.
  - destruct (decide (i <= j < i + 0)%nat); [lia | reflexivity].
  - destruct (lookup_lt_is_Some_2 l (S i)) as [v Hv]; [lia |].
    rewrite Hv, IH by (rewrite length_insert; lia).
    destruct (decide (j = i)) as [-> | Hne].
    + destruct (decide (S i <= i < S i + k)%nat); [lia |].
      destruct (decide (i <= i < i + S k)%nat); [| lia].
      rewrite list_lookup_insert_eq by lia. symmetry. exact Hv.
    + destruct (decide (S i <= j < S i + k)%nat);
        destruct (decide (i <= j < i + S k)%nat); try lia;
        rewrite list_lookup_insert_ne by lia; reflexivity.
Qed.

(** Shifting from [p] up to the last valid cell deletes cell [p] from the
    valid prefix. *)
Lemma take_shifts (n p : nat) (l : list Z) :
  (p < n)%nat -> (n <= length l)%nat ->
  take (n - 1) (shifts (n - 1 - p) p l) = delete p (take n l).
Proof.
  intros Hp Hn. apply list_eq. intros j.
  destruct (decide (j < n - 1)%nat) as [Hj | Hj].
  - rewrite lookup_take_lt, lookup_shifts by lia.
    destruct (decide (p <= j < p + (n - 1 - p))%nat).
    + rewrite list_lookup_delete_ge, lookup_take_lt by lia. reflexivity.
    + rewrite list_lookup_delete_lt, lookup_take_lt by lia. reflexivity.
  - rewrite lookup_take_ge by lia.
    symmetry. apply lookup_ge_None.
    rewrite length_delete, length_take.
    + lia.
    + apply lookup_lt_is_Some. rewrite length_take. lia.
Qed.

(** ** Running the monad *)

Lemma bind_Done {A B : Type} (m : M A) (f : A -> M B) (w w' : world) (a : A) :
  m w = Done (a, w') -> (m ≫= f) w = f a w'.
Proof. intros H. unfold mbind, M_bind. rewrite H. reflexivity. Qed.

Lemma bind_Done_inv {A B : Type} (m : M A) (f : A -> M B) (w w2 : world) (b : B) :
  (m ≫= f) w = Done (b, w2) ->
  exists (a : A) (w1 : world), m w = Done (a, w1) /\ f a w1 = Done (b, w2).
Proof.
  unfold mbind, M_bind. destruct (m w) as [[a w1] | |]; try discriminate.
  intros H. exists a, w1. split; [reflexivity | exact H].
Qed.

Lemma for_unfold (fuel : nat) (i : Z) (cond : Z -> world -> bool) (body : Z -> M unit)
    (w : world) :
  for_ fuel i cond body w =
    if cond i w then
      match fuel with
      | O => OutOfFuel
      | S fuel' =>
          match body i w with
          | Done (_, w') => for_ fuel' (wrap64 (i + 1)) cond body w'
          | Undefined => Undefined
          | OutOfFuel => OutOfFuel
          end
      end
    else Done (tt, w).
Proof. destruct fuel; reflexivity. Qed.

#[local] Arguments for_ : simpl never.

(** ** [del_elem]: the shifting loop *)

Lemma shift_step_ok (j : nat) (vec : list Z) (pos n : Z) (ar ci : list Z)
    (co : list out) (lg : list access) (a v : Z) :
  Z.of_nat (S j) < 2 ^ 64 ->
  ar !! S j = Some a -> vec !! S j = Some v ->
  shift_step (Z.of_nat j) (World (Func vec pos n) ar ci co lg) =
    Done (tt, World (Func (<[j := v]> vec) pos n) (<[j := a]> ar) ci co
                (lg ++ [ArrRead (Z.of_nat j + 1); ArrWrite (Z.of_nat j);
                        VecRead (Z.of_nat j + 1); VecWrite (Z.of_nat j)])).
Proof.
  intros Hj Ha Hv.
  pose proof (lookup_lt_Some _ _ _ Ha) as Hla.
  pose proof (lookup_lt_Some _ _ _ Hv) as Hlv.
  unfold shift_step, mbind, M_bind, arr_get, arr_set, vec_get, vec_set, touch. simpl.
  rewrite wrap64_small by lia.
  replace (Z.of_nat j + 1) with (Z.of_nat (S j)) by lia.
  rewrite (idx_nat ar (S j)) by lia. rewrite Ha. simpl.
  rewrite (idx_nat ar j) by lia.
  destruct (lookup_lt_is_Some_2 ar j) as [a0 Ha0]; [lia |]. rewrite Ha0. simpl.
  rewrite (idx_nat vec (S j)) by lia. rewrite Hv. simpl.
  rewrite (idx_nat vec j) by lia.
  destruct (lookup_lt_is_Some_2 vec j) as [v0 Hv0]; [lia |]. rewrite Hv0. simpl.
  rewrite Nat2Z.id, <- !app_assoc. reflexivity.
Qed.

Lemma shift_loop (k : nat) : forall (fuel j : nat) (vec : list Z) (pos n : Z)
    (ar ci : list Z) (co : list out) (lg : list access),
  n < 2 ^ 64 ->
  Z.of_nat j + Z.of_nat k = n - 1 ->
  n <= Z.of_nat (length ar) -> n <= Z.of_nat (length vec) ->
  (k <= fuel)%nat ->
  for_ fuel (Z.of_nat j) shift_cond shift_step (World (Func vec pos n) ar ci co lg) =
    Done (tt, World (Func (shifts k j vec) pos n) (shifts k j ar) ci co
                (lg ++ shift_log k (Z.of_nat j))).
Proof.
  induction k as [| k IH]; intros fuel j vec pos n ar ci co lg Hn Hk Har Hvec Hfuel.
  - rewrite for_unfold. unfold shift_cond. simpl.
    rewrite wrap64_small by lia.
    destruct (Z.ltb_spec (Z.of_nat j) (n - 1)); [lia |].
    rewrite app_nil_r. reflexivity.
  - rewrite for_unfold. unfold shift_cond at 1. simpl size.
    rewrite wrap64_small by lia.
    destruct (Z.ltb_spec (Z.of_nat j) (n - 1)); [| lia].
    destruct fuel as [| fuel]; [lia |].
    destruct (lookup_lt_is_Some_2 ar (S j)) as [a Ha]; [lia |].
    destruct (lookup_lt_is_Some_2 vec (S j)) as [v Hv]; [lia |].
    rewrite (shift_step_ok j vec pos n ar ci co lg a v) by (lia || assumption).
    rewrite wrap64_small by lia.
    replace (Z.of_nat j + 1) with (Z.of_nat (S j)) by lia.
    rewrite IH by (rewrite ?length_insert; lia).
    simpl shifts. rewrite Ha, Hv.
    simpl shift_log.
    replace (Z.of_nat j + 1) with (Z.of_nat (S j)) by lia.
    rewrite <- app_assoc. reflexivity.
Qed.

(** [del_elem] in terms of its loop. *)
Lemma del_elem_unfold (vec : list Z) (pos n : Z) (ar : list Z) (p : Z) (rest : list Z)
    (co : list out) (lg : list access) :
  del_elem (World (Func vec pos n) ar (p :: rest) co lg) =
    (for_ (S (length ar)) (wrap64 p) shift_cond shift_step;; size_decr)
      (World (Func vec p n) ar rest (co ++ prompt) lg).
Proof.
  unfold del_elem, prompt, mbind, M_bind, cout_put, cin_position, get_position, arr_fuel.
  simpl. rewrite <- app_assoc. reflexivity.
Qed.

(** A removal at a valid position, as an equation. *)
Lemma del_elem_in_range (vec : list Z) (pos n : Z) (ar : list Z) (p : Z) (rest : list Z)
    (co : list out) (lg : list access) :
  n < 2 ^ 64 -> 0 <= p < n ->
  n <= Z.of_nat (length ar) -> n <= Z.of_nat (length vec) ->
  del_elem (World (Func vec pos n) ar (p :: rest) co lg) =
    Done (tt, World (Func (shifts (Z.to_nat (n - 1 - p)) (Z.to_nat p) vec) p (n - 1))
                    (shifts (Z.to_nat (n - 1 - p)) (Z.to_nat p) ar) rest (co ++ prompt)
                    (lg ++ shift_log (Z.to_nat (n - 1 - p)) p)).
Proof.
  intros Hn Hp Har Hvec.
  rewrite del_elem_unfold, wrap64_small by lia.
  pose proof (shift_loop (Z.to_nat (n - 1 - p)) (S (length ar)) (Z.to_nat p)
                vec p n ar rest (co ++ prompt) lg) as HL.
  rewrite Z2Nat.id in HL by lia.
  rewrite (bind_Done _ _ _ _ _ (HL Hn ltac:(lia) Har Hvec ltac:(lia))).
  unfold size_decr. simpl.
  rewrite wrap64_small by lia. reflexivity.
Qed.

(** A removal whose loop is not entered: only [position] and [size]
    change, and no element is touched. *)
Lemma del_elem_no_shift (vec : list Z) (pos n : Z) (ar : list Z) (p : Z) (rest : list Z)
    (co : list out) (lg : list access) :
  wrap64 (n - 1) <= wrap64 p ->
  del_elem (World (Func vec pos n) ar (p :: rest) co lg) =
    Done (tt, World (Func vec p (wrap64 (n - 1))) ar rest (co ++ prompt) lg).
Proof.
  intros Hp. rewrite del_elem_unfold.
  unfold mbind, M_bind. rewrite for_unfold. unfold shift_cond. simpl.
  destruct (Z.ltb_spec (wrap64 p) (wrap64 (n - 1))); [lia | reflexivity].
Qed.

(** An [int] position outside [[0, size - 1)] does not enter the loop,
    as long as [size - 1] stays below the image of the negative [int]s. *)
Lemma wrap64_position_ge (n p : Z) :
  1 <= n <= 2 ^ 64 - 2 ^ 31 -> is_int p -> ~ (0 <= p < n - 1) ->
  wrap64 (n - 1) <= wrap64 p.
Proof.
  unfold is_int. intros Hn Hp Hout.
  rewrite (wrap64_small (n - 1)) by lia.
  destruct (Z.lt_ge_cases p 0).
  - rewrite wrap64_neg by lia. lia.
  - rewrite wrap64_small by lia. lia.
Qed.

Lemma stored_populated (stream : list Z) : stored (populated_with stream).
Proof. unfold stored, typed. simpl. lia. Defined.

(** ** [input]: the reading loop *)

Lemma length_fill (k i : nat) (s l : list Z) : length (fill k i s l) = length l.
Proof.
  revert i s l. induction k as [| k IH]; intros i s l; simpl; [reflexivity |].
  destruct s as [| x s]; [reflexivity |].
  rewrite IH, length_insert. reflexivity.
Qed.

Lemma fill_nil (k i : nat) (l : list Z) : fill k i [] l = l.
Proof. destruct k; reflexivity. Qed.

Lemma lookup_fill_lt (k i : nat) (s l : list Z) (j : nat) :
  (j < i)%nat -> fill k i s l !! j = l !! j.
Proof.
  revert i s l. induction k as [| k IH]; intros i s l Hj; simpl; [reflexivity |].
  destruct s as [| x s]; [reflexivity |].
  rewrite IH by lia. apply list_lookup_insert_ne. lia.
Qed.

(** With enough integers on the stream the loop overwrites exactly the
    cells [[i, i + k)] with the first [k] of them. *)
Lemma fill_full (xs : list Z) : forall (i : nat) (rest l : list Z),
  (i + length xs <= length l)%nat ->
  fill (length xs) i (xs ++ rest) l = take i l ++ xs ++ drop (i + length xs) l.
Proof.
  induction xs as [| x xs IH]; intros i rest l Hl; simpl.
  - rewrite Nat.add_0_r, take_drop. reflexivity.
  - rewrite IH by (rewrite length_insert; simpl in Hl; lia).
    simpl in Hl.
    rewrite (take_S_r (<[i := x]> l) i x) by (apply list_lookup_insert_eq; lia).
    rewrite take_insert_ge by lia.
    rewrite drop_insert_lt by lia.
    rewrite <- app_assoc. simpl.
    replace (i + S (length xs))%nat with (S (i + length xs)) by lia.
    reflexivity.
Qed.

Lemma input_loop (k : nat) : forall (fuel j : nat) (vec : list Z) (pos n : Z)
    (ar ci : list Z) (co : list out) (lg : list access),
  n < 2 ^ 64 ->
  Z.of_nat j + Z.of_nat k = n ->
  n <= Z.of_nat (length ar) ->
  (k <= fuel)%nat ->
  for_ fuel (Z.of_nat j) input_cond input_step (World (Func vec pos n) ar ci co lg) =
    Done (tt, World (Func (vec ++ take k (drop j (fill k j ci ar))) pos n)
                    (fill k j ci ar) (drop k ci) co
                    (lg ++ input_log k (Z.of_nat j) ci)).
Proof.
  induction k as [| k IH]; intros fuel j vec pos n ar ci co lg Hn Hk Har Hfuel.
  - rewrite for_unfold. unfold input_cond. simpl.
    destruct (Z.ltb_spec (Z.of_nat j) n); [lia |].
    rewrite !app_nil_r. reflexivity.
  - rewrite for_unfold. unfold input_cond at 1. simpl size.
    destruct (Z.ltb_spec (Z.of_nat j) n); [| lia].
    destruct fuel as [| fuel]; [lia |].
    destruct (lookup_lt_is_Some_2 ar j) as [a Ha]; [lia |].
    unfold input_step, mbind at 1 2, M_bind, cin_arr, arr_get, vec_push_back, touch.
    simpl. rewrite (idx_nat ar j) by lia. rewrite Ha.
    destruct ci as [| x ci]; simpl.
    + rewrite (idx_nat ar j) by lia. rewrite Ha. simpl.
      rewrite wrap64_small by lia.
      replace (Z.of_nat j + 1) with (Z.of_nat (S j)) by lia.
      rewrite IH by lia.
      rewrite !fill_nil, (drop_S ar a j Ha), drop_nil. simpl.
      rewrite <- !app_assoc. simpl.
      replace (Z.of_nat j + 1) with (Z.of_nat (S j)) by lia.
      reflexivity.
    + rewrite Nat2Z.id, idx_nat by (rewrite length_insert; lia).
      rewrite list_lookup_insert_eq by lia. simpl.
      rewrite wrap64_small by lia.
      replace (Z.of_nat j + 1) with (Z.of_nat (S j)) by lia.
      rewrite IH by (rewrite ?length_insert; lia).
      rewrite (drop_S (fill k (S j) ci (<[j := x]> ar)) x j).
      2: { rewrite lookup_fill_lt by lia. apply list_lookup_insert_eq. lia. }
      simpl. rewrite <- !app_assoc. simpl.
      replace (Z.of_nat j + 1) with (Z.of_nat (S j)) by lia.
      reflexivity.
Qed.

(** [input] as an equation, whatever the stream holds. *)
Lemma input_run (vec : list Z) (pos n : Z) (ar ci : list Z) (co : list out)
    (lg : list access) :
  0 <= n < 2 ^ 64 -> n <= Z.of_nat (length ar) ->
  input (World (Func vec pos n) ar ci co lg) =
    Done (tt, World (Func (vec ++ take (Z.to_nat n) (fill (Z.to_nat n) 0 ci ar)) pos n)
                    (fill (Z.to_nat n) 0 ci ar) (drop (Z.to_nat n) ci) co
                    (lg ++ input_log (Z.to_nat n) 0 ci)).
Proof.
  intros Hn Har. unfold input, mbind, M_bind, arr_fuel. simpl.
  apply (input_loop (Z.to_nat n) (S (length ar)) 0); simpl; lia.
Qed.

(** ** [output]: the two printing loops *)

Lemma print_arr_loop (k : nat) : forall (fuel j : nat) (f : func) (ar ci : list Z)
    (co : list out) (lg : list access),
  size f < 2 ^ 64 ->
  Z.of_nat j + Z.of_nat k = size f ->
  size f <= Z.of_nat (length ar) ->
  (k <= fuel)%nat ->
  for_ fuel (Z.of_nat j) input_cond print_arr (World f ar ci co lg) =
    Done (tt, World f ar ci
                (co ++ flat_map (fun x => [OStr "Array: "; OInt x]) (take k (drop j ar)))
                (lg ++ reads ArrRead k (Z.of_nat j))).
Proof.
  induction k as [| k IH]; intros fuel j f ar ci co lg Hn Hk Har Hfuel.
  - rewrite for_unfold. unfold input_cond. simpl.
    destruct (Z.ltb_spec (Z.of_nat j) (size f)); [lia |].
    rewrite !app_nil_r. reflexivity.
  - rewrite for_unfold. unfold input_cond at 1. simpl self.
    destruct (Z.ltb_spec (Z.of_nat j) (size f)); [| lia].
    destruct fuel as [| fuel]; [lia |].
    destruct (lookup_lt_is_Some_2 ar j) as [a Ha]; [lia |].
    unfold print_arr, mbind at 1 2, M_bind, cout_put, arr_get, touch.
    simpl. rewrite (idx_nat ar j) by lia. rewrite Ha. simpl.
    rewrite wrap64_small by lia.
    replace (Z.of_nat j + 1) with (Z.of_nat (S j)) by lia.
    rewrite IH by lia.
    rewrite (drop_S ar a j Ha). simpl.
    rewrite <- !app_assoc. simpl.
    replace (Z.of_nat j + 1) with (Z.of_nat (S j)) by lia.
    reflexivity.
Qed.

Lemma print_vec_loop (k : nat) : forall (fuel j : nat) (vec : list Z) (pos n : Z)
    (ar ci : list Z) (co : list out) (lg : list access),
  n < 2 ^ 64 ->
  Z.of_nat j + Z.of_nat k = n ->
  n <= Z.of_nat (length vec) ->
  (k <= fuel)%nat ->
  for_ fuel (Z.of_nat j) input_cond print_vec (World (Func vec pos n) ar ci co lg) =
    Done (tt, World (Func vec pos n) ar ci
                (co ++ flat_map (fun x => [OStr "Vectyor:"; OInt x]) (take k (drop j vec)))
                (lg ++ reads VecRead k (Z.of_nat j))).
Proof.
  induction k as [| k IH]; intros fuel j vec pos n ar ci co lg Hn Hk Hvec Hfuel.
  - rewrite for_unfold. unfold input_cond. simpl.
    destruct (Z.ltb_spec (Z.of_nat j) n); [lia |].
    rewrite !app_nil_r. reflexivity.
  - rewrite for_unfold. unfold input_cond at 1. simpl size.
    destruct (Z.ltb_spec (Z.of_nat j) n); [| lia].
    destruct fuel as [| fuel]; [lia |].
    destruct (lookup_lt_is_Some_2 vec j) as [a Ha]; [lia |].
    unfold print_vec, mbind at 1 2, M_bind, cout_put, vec_get, touch.
    simpl. rewrite (idx_nat vec j) by lia. rewrite Ha. simpl.
    rewrite wrap64_small by lia.
    replace (Z.of_nat j + 1) with (Z.of_nat (S j)) by lia.
    rewrite IH by lia.
    rewrite (drop_S vec a j Ha). simpl.
    rewrite <- !app_assoc. simpl.
    replace (Z.of_nat j + 1) with (Z.of_nat (S j)) by lia.
    reflexivity.
Qed.

Lemma print_arr_all (f : func) (ar ci : list Z) (co : list out) (lg : list access) :
  0 <= size f < 2 ^ 64 -> size f <= Z.of_nat (length ar) ->
  for_ (S (length ar)) 0 input_cond print_arr (World f ar ci co lg) =
    Done (tt, World f ar ci
                (co ++ flat_map (fun x => [OStr "Array: "; OInt x])
                         (take (Z.to_nat (size f)) ar))
                (lg ++ reads ArrRead (Z.to_nat (size f)) 0)).
Proof.
  intros Hn Har.
  apply (print_arr_loop (Z.to_nat (size f)) (S (length ar)) 0); simpl; lia.
Qed.

Lemma print_vec_all (vec : list Z) (pos n : Z) (ar ci : list Z) (co : list out)
    (lg : list access) :
  0 <= n < 2 ^ 64 -> n <= Z.of_nat (length vec) ->
  for_ (S (length vec)) 0 input_cond print_vec (World (Func vec pos n) ar ci co lg) =
    Done (tt, World (Func vec pos n) ar ci
                (co ++ flat_map (fun x => [OStr "Vectyor:"; OInt x]) (take (Z.to_nat n) vec))
                (lg ++ reads VecRead (Z.to_nat n) 0)).
Proof.
  intros Hn Hvec.
  apply (print_vec_loop (Z.to_nat n) (S (length vec)) 0); simpl; lia.
Qed.

(** [output] as an equation: it prints the valid elements of both stores
    and changes nothing but [cout] (and the ghost trace). *)
Lemma output_run (w : world) :
  stored w ->
  output w =
    Done (tt, World (self w) (arr w) (cin w)
                (cout w ++ render (snapshot w) (snapshot_vec w))
                (log w ++ reads ArrRead (Z.to_nat (size (self w))) 0
                       ++ reads VecRead (Z.to_nat (size (self w))) 0)).
Proof.
  destruct w as [[vec pos n] ar ci co lg].
  unfold stored, typed, snapshot, snapshot_vec. simpl. intros (Hn & Har & Hvec).
  unfold output, mbind, M_bind, cout_put at 1 2, arr_fuel. simpl.
  fold input_cond. rewrite print_arr_all by (simpl; lia).
  unfold cout_put, vec_fuel. simpl.
  fold input_cond. rewrite print_vec_all by lia.
  unfold render. simpl. rewrite <- !app_assoc. reflexivity.
Qed.

(** ** Agreement of the two stores *)

Lemma lockstep_of_snapshots (w : world) :
  stored w -> snapshot w = snapshot_vec w -> lockstep w.
Proof.
  destruct w as [[vec pos n] ar ci co lg].
  unfold stored, typed, snapshot, snapshot_vec, lockstep. simpl.
  intros (Hn & Har & Hvec) Heq i Hi.
  destruct (lookup_lt_is_Some_2 ar (Z.to_nat i)) as [v Hv]; [lia |].
  exists v.
  rewrite <- (Z2Nat.id i) by lia.
  rewrite !idx_nat by lia. split; [exact Hv |].
  rewrite <- (lookup_take_lt vec (Z.to_nat n)) by lia.
  rewrite <- Heq, lookup_take_lt by lia. exact Hv.
Qed.

Lemma lockstep_stored (w : world) : typed w -> lockstep w -> stored w.
Proof.
  destruct w as [[vec pos n] ar ci co lg].
  unfold stored, typed, lockstep. simpl. intros Hn Hl.
  split; [exact Hn |]. split.
  - destruct (Z.le_gt_cases n (Z.of_nat (length ar))) as [| Hgt]; [assumption |].
    destruct (Hl (Z.of_nat (length ar))) as (v & Hv & _); [lia |].
    rewrite idx_None in Hv by lia. discriminate.
  - destruct (Z.le_gt_cases n (Z.of_nat (length vec))) as [| Hgt]; [assumption |].
    destruct (Hl (Z.of_nat (length vec))) as (v & _ & Hv); [lia |].
    rewrite idx_None in Hv by lia. discriminate.
Qed.

Lemma lockstep_snapshots (w : world) :
  typed w -> lockstep w -> snapshot w = snapshot_vec w.
Proof.
  intros Ht Hl. pose proof (lockstep_stored w Ht Hl) as Hs.
  destruct w as [[vec pos n] ar ci co lg].
  unfold stored, typed, snapshot, snapshot_vec, lockstep in *. simpl in *.
  destruct Hs as (Hn & Har & Hvec).
  apply list_eq. intros j.
  destruct (decide (j < Z.to_nat n)%nat) as [Hj | Hj].
  - rewrite !lookup_take_lt by lia.
    destruct (Hl (Z.of_nat j)) as (v & Ha & Hv); [lia |].
    rewrite idx_nat in Ha, Hv by lia. congruence.
  - rewrite !lookup_take_ge by lia. reflexivity.
Qed.

(** ** What a returning call leaves unchanged *)

Lemma for_inv (P : world -> Prop) (cond : Z -> world -> bool) (body : Z -> M unit) :
  (forall (i : Z) (w w' : world) (u : unit), P w -> body i w = Done (u, w') -> P w') ->
  forall (fuel : nat) (i : Z) (w w' : world) (u : unit),
    P w -> for_ fuel i cond body w = Done (u, w') -> P w'.
Proof.
  intros Hbody. induction fuel as [| fuel IH]; intros i w w' u HP; rewrite for_unfold.
  - destruct (cond i w); [discriminate |]. intros [= <- <-]. exact HP.
  - destruct (cond i w).
    + destruct (body i w) as [[u1 w1] | |] eqn:Hb; try discriminate.
      apply IH. exact (Hbody i w w1 u1 HP Hb).
    + intros [= <- <-]. exact HP.
Qed.

(** Takes a returning run of binds apart, one primitive at a time. *)
Ltac split_run :=
  repeat match goal with
  | H : (_ ≫= _) _ = Done _ |- _ =>
      apply bind_Done_inv in H; destruct H as (? & ? & ? & H)
  end.

Ltac prim_run :=
  repeat match goal with
  | H : arr_get _ _ = Done _ |- _ =>
      unfold arr_get in H; destruct (idx _ _) in H; [| discriminate]; injection H as <- <-
  | H : arr_set _ _ _ = Done _ |- _ =>
      unfold arr_set in H; destruct (idx _ _) in H; [| discriminate]; injection H as <- <-
  | H : vec_get _ _ = Done _ |- _ =>
      unfold vec_get in H; destruct (idx _ _) in H; [| discriminate]; injection H as <- <-
  | H : vec_set _ _ _ = Done _ |- _ =>
      unfold vec_set in H; destruct (idx _ _) in H; [| discriminate]; injection H as <- <-
  | H : vec_push_back _ _ = Done _ |- _ => unfold vec_push_back in H; injection H as <- <-
  | H : cin_arr _ _ = Done _ |- _ =>
      unfold cin_arr in H; destruct (idx _ _) in H; [| discriminate];
      destruct (cin _) in H; injection H as <- <-
  | H : cin_position _ = Done _ |- _ =>
      unfold cin_position in H; destruct (cin _) in H; injection H as <- <-
  | H : get_position _ = Done _ |- _ => unfold get_position in H; injection H as <- <-
  | H : size_decr _ = Done _ |- _ => unfold size_decr in H; injection H as <- <-
  | H : cout_put _ _ = Done _ |- _ => unfold cout_put in H; injection H as <- <-
  | H : arr_fuel _ = Done _ |- _ => unfold arr_fuel in H; injection H as <- <-
  | H : vec_fuel _ = Done _ |- _ => unfold vec_fuel in H; injection H as <- <-
  end.

Lemma input_step_size (i : Z) (w w' : world) (u : unit) (n : Z) :
  size (self w) = n -> input_step i w = Done (u, w') -> size (self w') = n.
Proof. unfold input_step. intros Hn H. split_run. prim_run; exact Hn. Qed.

Lemma shift_step_size (i : Z) (w w' : world) (u : unit) (n : Z) :
  size (self w) = n -> shift_step i w = Done (u, w') -> size (self w') = n.
Proof. unfold shift_step. intros Hn H. split_run. prim_run; exact Hn. Qed.

Lemma print_arr_size (i : Z) (w w' : world) (u : unit) (n : Z) :
  size (self w) = n -> print_arr i w = Done (u, w') -> size (self w') = n.
Proof. unfold print_arr. intros Hn H. split_run. prim_run; exact Hn. Qed.

Lemma print_vec_size (i : Z) (w w' : world) (u : unit) (n : Z) :
  size (self w) = n -> print_vec i w = Done (u, w') -> size (self w') = n.
Proof. unfold print_vec. intros Hn H. split_run. prim_run; exact Hn. Qed.

(** [input] never changes [size]. *)
Lemma input_size (w w' : world) (u : unit) :
  input w = Done (u, w') -> size (self w') = size (self w).
Proof.
  unfold input. intros H. split_run. prim_run.
  eapply (for_inv (fun w0 => size (self w0) = size (self w))); [| | exact H].
  - intros i w0 w1 u0. apply input_step_size.
  - reflexivity.
Qed.

(** [output] never changes [size]. *)
Lemma output_size (w w' : world) (u : unit) :
  output w = Done (u, w') -> size (self w') = size (self w).
Proof.
  unfold output. intros H. split_run. prim_run.
  eapply (for_inv (fun w0 => size (self w0) = size (self w))) in H;
    [| intros i w0 w1 u0; apply print_vec_size |]; [exact H |].
  simpl.
  match goal with
  | H1 : for_ _ _ _ print_arr _ = Done _ |- _ =>
      eapply (for_inv (fun w0 => size (self w0) = size (self w))) in H1;
        [| intros i w0 w1 u0; apply print_arr_size | reflexivity]
  end.
  assumption.
Qed.

(** A returning [del_elem] leaves [size - 1], taken in 64 bits. *)
Lemma del_elem_size (w w' : world) (u : unit) :
  del_elem w = Done (u, w') -> size (self w') = wrap64 (size (self w) - 1).
Proof.
  unfold del_elem. intros H. split_run. prim_run.
  - simpl.
    match goal with
    | H1 : for_ _ _ _ shift_step _ = Done _ |- _ =>
        eapply (for_inv (fun w0 => size (self w0) = size (self w))) in H1;
          [| intros i w0 w1 u0; apply shift_step_size | reflexivity]
    end.
    congruence.
  - simpl.
    match goal with
    | H1 : for_ _ _ _ shift_step _ = Done _ |- _ =>
        eapply (for_inv (fun w0 => size (self w0) = size (self w))) in H1;
          [| intros i w0 w1 u0; apply shift_step_size | reflexivity]
    end.
    congruence.
Qed.

(** A removal at a valid position: the valid elements lose index [p]. *)
Lemma del_elem_valid (w : world) (p : Z) (rest : list Z) :
  stored w -> cin w = p :: rest -> 0 <= p < size (self w) ->
  exists w' : world,
    del_elem w = Done (tt, w') /\
    size (self w') = size (self w) - 1 /\
    snapshot w' = delete (Z.to_nat p) (snapshot w) /\
    snapshot_vec w' = delete (Z.to_nat p) (snapshot_vec w) /\
    Z.of_nat (length (snapshot w')) = Z.of_nat (length (snapshot w)) - 1 /\
    cin w' = rest /\
    stored w'.
Proof.
  destruct w as [[vec pos n] ar ci co lg]. unfold stored, typed, snapshot, snapshot_vec.
  simpl. intros (Hn & Har & Hvec) -> Hp.
  eexists. split; [apply del_elem_in_range; lia |]. simpl.
  replace (Z.to_nat (n - 1 - p)) with (Z.to_nat n - 1 - Z.to_nat p)%nat by lia.
  replace (Z.to_nat (n - 1)) with (Z.to_nat n - 1)%nat by lia.
  rewrite !take_shifts by lia.
  rewrite !length_shifts, length_delete, !length_take.
  - repeat split; lia.
  - apply lookup_lt_is_Some. rewrite length_take. lia.
Qed.

(** ** Several removals in a row *)

Lemma repeat_m_S (n : nat) (m : M unit) (w w1 : world) :
  m w = Done (tt, w1) -> repeat_m (S n) m w = repeat_m n m w1.
Proof. intros H. exact (bind_Done m (fun _ => repeat_m n m) w w1 tt H). Qed.

Lemma removals_run (ps : list Z) : forall (w : world) (rest : list Z),
  stored w -> cin w = ps ++ rest -> valid_positions (size (self w)) ps ->
  exists w' : world,
    repeat_m (length ps) del_elem w = Done (tt, w') /\
    size (self w') = size (self w) - Z.of_nat (length ps) /\
    snapshot w' = delete_all ps (snapshot w) /\
    snapshot_vec w' = delete_all ps (snapshot_vec w) /\
    Z.of_nat (length (snapshot w')) = Z.of_nat (length (snapshot w)) - Z.of_nat (length ps) /\
    cin w' = rest /\
    stored w'.
Proof.
  induction ps as [| p ps IH]; intros w rest Hs Hcin Hv.
  - exists w. simpl in *. repeat split; try lia; try assumption; apply Hs.
  - destruct Hv as [Hp Hv].
    destruct (del_elem_valid w p (ps ++ rest) Hs Hcin Hp)
      as (w1 & Hrun & Hsize & Hsnap & Hsnapv & Hlen & Hcin1 & Hs1).
    rewrite <- Hsize in Hv.
    destruct (IH w1 rest Hs1 Hcin1 Hv)
      as (w' & Hrun' & Hsize' & Hsnap' & Hsnapv' & Hlen' & Hcin' & Hs').
    exists w'. change (length (p :: ps)) with (S (length ps)).
    rewrite (repeat_m_S _ _ _ _ Hrun).
    unfold delete_all in *. simpl foldl.
    rewrite <- Hsnap, <- Hsnapv.
    repeat split; try assumption; try lia; apply Hs'.
Qed.

Lemma valid_positions_take (ps : list Z) : forall (n : Z) (k : nat),
  valid_positions n ps -> valid_positions n (take k ps).
Proof.
  induction ps as [| p ps IH]; intros n k Hv; destruct k; simpl; try exact I.
  destruct Hv as [Hp Hv]. split; [exact Hp | apply IH; exact Hv].
Qed.

(** ** [input] with enough integers on the stream *)

Lemma input_full (w : world) :
  typed w ->
  size (self w) <= Z.of_nat (length (arr w)) ->
  size (self w) <= Z.of_nat (length (cin w)) ->
  input w =
    Done (tt, World (Func (vector1 (self w) ++ take (Z.to_nat (size (self w))) (cin w))
                          (position (self w)) (size (self w)))
                    (take (Z.to_nat (size (self w))) (cin w)
                       ++ drop (Z.to_nat (size (self w))) (arr w))
                    (drop (Z.to_nat (size (self w))) (cin w)) (cout w)
                    (log w ++ input_log (Z.to_nat (size (self w))) 0 (cin w))).
Proof.
  destruct w as [[vec pos n] ar ci co lg]. unfold typed. simpl. intros Hn Har Hci.
  rewrite input_run by lia.
  assert (Hlen : length (take (Z.to_nat n) ci) = Z.to_nat n) by (rewrite length_take; lia).
  assert (Hfill : fill (Z.to_nat n) 0 ci ar = take (Z.to_nat n) ci ++ drop (Z.to_nat n) ar).
  { rewrite <- (take_drop (Z.to_nat n) ci) at 1. rewrite <- Hlen at 1.
    rewrite fill_full by (simpl; lia). simpl. rewrite Hlen. reflexivity. }
  rewrite Hfill, take_app_length' by (symmetry; exact Hlen). reflexivity.
Qed.

(** ** Runs of operations *)

Lemma removals_nonneg (ops : list op) : 0 <= removals ops.
Proof. induction ops as [| [] ops IH]; simpl; lia. Qed.

Lemma exec_size (o : op) (w w' : world) :
  exec o w = Done (tt, w') ->
  size (self w') =
    match o with
    | OpDelElem => wrap64 (size (self w) - 1)
    | _ => size (self w)
    end.
Proof.
  destruct o; simpl; [apply input_size | apply del_elem_size | apply output_size].
Qed.

Lemma run_size (ops : list op) : forall w w' : world,
  0 <= size (self w) < 2 ^ 64 -> removals ops <= size (self w) ->
  run ops w = Done (tt, w') ->
  size (self w') = size (self w) - removals ops.
Proof.
  induction ops as [| o ops IH]; intros w w' Hn Hr Hrun.
  - simpl in *. injection Hrun as <-. lia.
  - simpl run in Hrun. apply bind_Done_inv in Hrun as ([] & w1 & Ho & Hrun).
    pose proof (exec_size o w w1 Ho) as H1.
    pose proof (removals_nonneg ops) as Hnn.
    destruct o; simpl removals in *.
    + rewrite (IH w1 w'); [lia | lia | lia | exact Hrun].
    + rewrite wrap64_small in H1 by lia.
      rewrite (IH w1 w'); [lia | lia | lia | exact Hrun].
    + rewrite (IH w1 w'); [lia | lia | lia | exact Hrun].
Qed.

(** ** The fuel given to the loops is enough *)

Lemma for_fuel_enough (len : world -> nat) (I : world -> Prop)
    (cond : Z -> world -> bool) (body : Z -> M unit) :
  (forall (i : Z) (w : world), body i w <> OutOfFuel) ->
  (forall (i : Z) (w w' : world) (u : unit),
     I w -> 0 <= i -> cond i w = true -> body i w = Done (u, w') ->
     i < Z.of_nat (len w) /\ i + 1 < 2 ^ 64 /\ len w' = len w /\ I w') ->
  forall (fuel : nat) (i : Z) (w : world),
    I w -> 0 <= i -> (1 <= fuel)%nat -> Z.of_nat (len w) < i + Z.of_nat fuel ->
    for_ fuel i cond body w <> OutOfFuel.
Proof.
  intros Hno Hstep. induction fuel as [| fuel IH]; intros i w HI Hi Hf Hlen; [lia |].
  rewrite for_unfold. destruct (cond i w) eqn:Hc; [| discriminate].
  destruct (body i w) as [[u w1] | |] eqn:Hb; [| discriminate | destruct (Hno i w Hb)].
  destruct (Hstep i w w1 u HI Hi Hc Hb) as (Hin & Hw & Hl & HI1).
  rewrite wrap64_small by lia.
  apply IH; [exact HI1 | lia | | rewrite Hl; lia].
  destruct fuel; [lia | lia].
Qed.

Lemma input_step_fuel (i : Z) (w : world) : input_step i w <> OutOfFuel.
Proof.
  unfold input_step, mbind, M_bind, cin_arr, arr_get, vec_push_back.
  destruct (idx (arr w) i); [| discriminate].
  destruct (cin w); simpl; destruct (idx _ i); discriminate.
Qed.

Lemma shift_step_fuel (i : Z) (w : world) : shift_step i w <> OutOfFuel.
Proof.
  unfold shift_step, mbind, M_bind, arr_get, arr_set, vec_get, vec_set.
  destruct (idx (arr w) _); [| discriminate]. simpl.
  destruct (idx (arr w) i); [| discriminate]. simpl.
  destruct (idx (vector1 (self w)) _); [| discriminate]. simpl.
  destruct (idx (vector1 (self w)) i); discriminate.
Qed.

Lemma print_arr_fuel (i : Z) (w : world) : print_arr i w <> OutOfFuel.
Proof.
  unfold print_arr, mbind, M_bind, cout_put, arr_get. simpl.
  destruct (idx (arr w) i); discriminate.
Qed.

Lemma print_vec_fuel (i : Z) (w : world) : print_vec i w <> OutOfFuel.
Proof.
  unfold print_vec, mbind, M_bind, cout_put, vec_get. simpl.
  destruct (idx (vector1 (self w)) i); discriminate.
Qed.

Lemma input_fuel (w : world) : typed w -> input w <> OutOfFuel.
Proof.
  intros Ht. unfold input, mbind, M_bind, arr_fuel.
  apply (for_fuel_enough (fun w0 => length (arr w0)) typed);
    [apply input_step_fuel | | exact Ht | lia | lia | lia].
  clear. intros i w w' u Ht Hi Hc Hb.
  apply Z.ltb_lt in Hc. unfold typed in *.
  pose proof (input_step_size i w w' u _ eq_refl Hb) as Hsz.
  unfold input_step in Hb. split_run.
  lazymatch goal with
  | H : cin_arr _ _ = Done _ |- _ =>
      unfold cin_arr in H; destruct (idx (arr w) i) eqn:E in H; [| discriminate];
      apply idx_Some in E as [Hin _]; destruct (cin w) in H; injection H as <- <-
  end; prim_run; simpl in *; rewrite ?length_insert; repeat split; lia.
Qed.

Lemma del_elem_fuel (w : world) : del_elem w <> OutOfFuel.
Proof.
  assert (Hloop : forall (p : Z) (w0 : world),
             for_ (S (length (arr w0))) (wrap64 p) shift_cond shift_step w0 <> OutOfFuel).
  2: { unfold del_elem, mbind, M_bind, cout_put, cin_position, get_position, arr_fuel,
         size_decr.
       simpl. fold shift_cond.
       destruct (cin w) as [| x rest]; simpl;
         match goal with
         | |- context [for_ ?f (wrap64 ?p) shift_cond shift_step ?w0] =>
             pose proof (Hloop p w0) as Hl; simpl in Hl;
             destruct (for_ f (wrap64 p) shift_cond shift_step w0) as [[] | |]; congruence
         end. }
  clear w. intros p w0. pose proof (wrap64_range p) as Hp.
  apply (for_fuel_enough (fun w1 => length (arr w1)) (fun _ => True));
    [apply shift_step_fuel | | exact I | lia | lia | lia].
  clear. intros i w w' u _ Hi Hc Hb.
  apply Z.ltb_lt in Hc. pose proof (wrap64_range (size (self w) - 1)) as Hr.
  unfold shift_step in Hb. split_run.
  lazymatch goal with
  | H : arr_get _ _ = Done _ |- _ =>
      unfold arr_get in H; destruct (idx _ _) in H; [| discriminate]; injection H as <- <-
  end.
  lazymatch goal with
  | H : arr_set _ _ _ = Done _ |- _ =>
      unfold arr_set in H; destruct (idx _ i) eqn:E in H; [| discriminate];
      apply idx_Some in E as [Hin _]; injection H as <- <-
  end.
  prim_run; simpl in *; rewrite ?length_insert; repeat split; lia.
Qed.

Lemma print_arr_loop_fuel (w : world) :
  typed w -> for_ (S (length (arr w))) 0 input_cond print_arr w <> OutOfFuel.
Proof.
  intros Ht.
  apply (for_fuel_enough (fun w0 => length (arr w0)) typed);
    [apply print_arr_fuel | | exact Ht | lia | lia | lia].
  clear. intros i w w' u Ht Hi Hc Hb.
  apply Z.ltb_lt in Hc. unfold typed in *.
  unfold print_arr in Hb. split_run.
  lazymatch goal with
  | H : arr_get _ _ = Done _ |- _ =>
      unfold arr_get in H; destruct (idx (arr _) i) eqn:E in H; [| discriminate];
      apply idx_Some in E as [Hin _]; injection H as <- <-
  end.
  prim_run; simpl in *; repeat split; lia.
Qed.

Lemma print_vec_loop_fuel (w : world) :
  typed w -> for_ (S (length (vector1 (self w)))) 0 input_cond print_vec w <> OutOfFuel.
Proof.
  intros Ht.
  apply (for_fuel_enough (fun w0 => length (vector1 (self w0))) typed);
    [apply print_vec_fuel | | exact Ht | lia | lia | lia].
  clear. intros i w w' u Ht Hi Hc Hb.
  apply Z.ltb_lt in Hc. unfold typed in *.
  unfold print_vec in Hb. split_run.
  lazymatch goal with
  | H : vec_get _ _ = Done _ |- _ =>
      unfold vec_get in H; destruct (idx (vector1 _) i) eqn:E in H; [| discriminate];
      apply idx_Some in E as [Hin _]; injection H as <- <-
  end.
  prim_run; simpl in *; repeat split; lia.
Qed.

Lemma output_fuel (w : world) : typed w -> output w <> OutOfFuel.
Proof.
  intros Ht. unfold output, mbind, M_bind, cout_put at 1 2, arr_fuel. simpl.
  fold input_cond.
  match goal with
  | |- context [for_ ?f 0 input_cond print_arr ?w1] =>
      pose proof (print_arr_loop_fuel w1 Ht) as H1; simpl in H1;
      destruct (for_ f 0 input_cond print_arr w1) as [[u w2] | |] eqn:Hrun;
      [| discriminate | congruence]
  end.
  unfold cout_put, vec_fuel. simpl.
  assert (Ht2 : typed w2).
  { pose proof Hrun as Hsz.
    eapply (for_inv (fun w0 => size (self w0) = size (self w))) in Hsz;
      [| intros i w0 w1 u0; apply print_arr_size | reflexivity].
    unfold typed. rewrite Hsz. exact Ht. }
  match goal with
  | |- context [for_ ?f 0 ?c print_vec ?w3] =>
      pose proof (print_vec_loop_fuel w3 Ht2) as H2; simpl in H2;
      destruct (for_ f 0 c print_vec w3) as [[u3 w4] | |]; congruence
  end.
Qed.

(** No call of a member function runs out of the fuel its loops are
    given: every outcome is a return or undefined behaviour. *)
Lemma fuel_suffices (o : op) (w : world) : typed w -> exec o w <> OutOfFuel.
Proof.
  intros Ht. destruct o; simpl;
    [apply input_fuel; exact Ht | apply del_elem_fuel | apply output_fuel; exact Ht].
Qed.

(** ** The scenarios of the specification, run on the code *)

Example scenario_1 :
  exists w1 : world,
    input (start (replicate 10 0) (elems ++ [3; 8])) = Done (tt, w1) /\
    snapshot w1 = [5; 3; 8; 1; 9; 2; 7; 4; 6; 0] /\
    snapshot_vec w1 = [5; 3; 8; 1; 9; 2; 7; 4; 6; 0].
Proof. eexists. split; [vm_compute; reflexivity | split; reflexivity]. Qed.

Example scenario_2 :
  exists w2 : world,
    (input;; del_elem) (start (replicate 10 0) (elems ++ [3; 8])) = Done (tt, w2) /\
    snapshot w2 = [5; 3; 8; 9; 2; 7; 4; 6; 0] /\
    snapshot_vec w2 = [5; 3; 8; 9; 2; 7; 4; 6; 0] /\
    size (self w2) = 9.
Proof. eexists. split; [vm_compute; reflexivity | repeat split; reflexivity]. Qed.

Example scenario_3 :
  exists w3 : world,
    (input;; del_elem;; del_elem) (start (replicate 10 0) (elems ++ [3; 8])) = Done (tt, w3) /\
    snapshot w3 = [5; 3; 8; 9; 2; 7; 4; 6] /\
    snapshot_vec w3 = [5; 3; 8; 9; 2; 7; 4; 6] /\
    size (self w3) = 8.
Proof. eexists. split; [vm_compute; reflexivity | repeat split; reflexivity]. Qed.

Example main_run :
  exists w : world,
    main (start (replicate 10 0) (elems ++ [3])) = Done (tt, w) /\
    cout w = prompt ++ render [5; 3; 8; 9; 2; 7; 4; 6; 0] [5; 3; 8; 9; 2; 7; 4; 6; 0].
Proof. eexists. split; [vm_compute; reflexivity | reflexivity]. Qed.

(** ** [del_elem] for every [int] position *)

(** At the end of the stream [del_elem] works with the old [position]. *)
Lemma del_elem_eof (f : func) (ar : list Z) (co : list out) (lg : list access) :
  del_elem (World f ar [] co lg) = del_elem (World f ar [position f] co lg).
Proof. destruct f as [vec pos n]. reflexivity. Qed.

Lemma after_removal_last (n : Z) (l : list Z) :
  1 <= n -> Z.of_nat (length l) = n ->
  delete (Z.to_nat (n - 1)) l = take (Z.to_nat (n - 1)) l.
Proof.
  intros Hn Hl. rewrite delete_take_drop.
  rewrite (drop_ge l (S (Z.to_nat (n - 1)))) by lia.
  apply app_nil_r.
Qed.

(** One call on a non-empty sequence, whatever [int] is typed. *)
Lemma del_elem_total (w : world) :
  stored w -> 1 <= size (self w) <= 2 ^ 64 - 2 ^ 31 -> is_int (next_position w) ->
  exists w' : world,
    del_elem w = Done (tt, w') /\
    size (self w') = size (self w) - 1 /\
    position (self w') = next_position w /\
    snapshot w' = after_removal (size (self w)) (next_position w) (snapshot w) /\
    snapshot_vec w' = after_removal (size (self w)) (next_position w) (snapshot_vec w) /\
    length (arr w') = length (arr w) /\
    length (vector1 (self w')) = length (vector1 (self w)) /\
    cin w' = tail (cin w) /\
    cout w' = cout w ++ prompt /\
    stored w'.
Proof.
  destruct w as [[vec pos n] ar ci co lg].
  unfold stored, typed, next_position, snapshot, snapshot_vec, after_removal. simpl.
  intros (Hn & Har & Hvec) Hn1 Hp.
  assert (Hgen : forall p : Z, is_int p ->
            exists w' : world,
              del_elem (World (Func vec pos n) ar [p] co lg) = Done (tt, w') /\
              del_elem (World (Func vec pos n) ar (p :: tail ci) co lg)
                = Done (tt, with_cin (tail ci) w') /\
              size (self w') = n - 1 /\ position (self w') = p /\
              take (Z.to_nat (size (self w'))) (arr w') =
                (if (0 <=? p) && (p <? n) then delete (Z.to_nat p) (take (Z.to_nat n) ar)
                 else take (Z.to_nat (n - 1)) (take (Z.to_nat n) ar)) /\
              take (Z.to_nat (size (self w'))) (vector1 (self w')) =
                (if (0 <=? p) && (p <? n) then delete (Z.to_nat p) (take (Z.to_nat n) vec)
                 else take (Z.to_nat (n - 1)) (take (Z.to_nat n) vec)) /\
              length (arr w') = length ar /\
              length (vector1 (self w')) = length vec /\
              cout w' = co ++ prompt).
  { intros p Hip.
    destruct (decide (0 <= p < n - 1)) as [Hin | Hout].
    - eexists. split; [apply del_elem_in_range; lia |].
      split; [rewrite del_elem_in_range by lia; reflexivity |]. simpl.
      replace (Z.to_nat (n - 1 - p)) with (Z.to_nat n - 1 - Z.to_nat p)%nat by lia.
      replace (Z.to_nat (n - 1)) with (Z.to_nat n - 1)%nat by lia.
      rewrite !take_shifts, !length_shifts by lia.
      destruct (Z.leb_spec 0 p); [| lia]. destruct (Z.ltb_spec p n); [| lia].
      repeat split; reflexivity.
    - pose proof (wrap64_position_ge n p ltac:(lia) Hip Hout) as Hge.
      eexists. split; [apply del_elem_no_shift; exact Hge |].
      split; [rewrite del_elem_no_shift by exact Hge; reflexivity |]. simpl.
      rewrite wrap64_small by lia.
      rewrite !take_take.
      replace (Z.to_nat (n - 1) `min` Z.to_nat n)%nat with (Z.to_nat (n - 1)) by lia.
      destruct ((0 <=? p) && (p <? n)) eqn:Hc.
      + apply andb_true_iff in Hc as [H1 H2]. apply Z.leb_le in H1. apply Z.ltb_lt in H2.
        assert (p = n - 1) as -> by lia.
        rewrite !after_removal_last by (rewrite ?length_take; lia).
        rewrite !take_take.
        replace (Z.to_nat (n - 1) `min` Z.to_nat n)%nat with (Z.to_nat (n - 1)) by lia.
        repeat split; reflexivity.
      + repeat split; reflexivity. }
  destruct ci as [| p ci]; simpl in *.
  - destruct (Hgen pos Hp) as (w' & Hrun & _ & Hsz & Hpos & Ha & Hv & Hla & Hlv & Hco).
    exists w'. rewrite del_elem_eof. simpl.
    assert (Hcin : cin w' = []).
    { pose proof Hrun as Hr.
      destruct (decide (0 <= pos < n - 1)).
      - rewrite del_elem_in_range in Hr by lia. injection Hr as <-. reflexivity.
      - rewrite del_elem_no_shift in Hr
          by (apply wrap64_position_ge; [lia | exact Hp | assumption]).
        injection Hr as <-. reflexivity. }
    repeat split; try assumption; lia.
  - destruct (Hgen p Hp) as (w' & _ & Hrun & Hsz & Hpos & Ha & Hv & Hla & Hlv & Hco).
    exists (with_cin ci w'). unfold with_cin. simpl.
    repeat split; try assumption; lia.
Qed.

(** ** The whole program *)

Lemma tail_drop (n : nat) (l : list Z) : tail (drop n l) = drop (S n) l.
Proof.
  revert l. induction n as [| n IH]; intros [| x l]; simpl; try reflexivity.
  - apply IH.
Qed.

(** [main] from any state with an empty vector and a non-empty [size]
    that the array can hold, whatever the stream holds, as long as the
    position it ends up with is an [int]. *)
Lemma main_general (w : world) :
  vector1 (self w) = [] ->
  1 <= size (self w) <= 2 ^ 64 - 2 ^ 31 ->
  size (self w) <= Z.of_nat (length (arr w)) ->
  is_int (hd (position (self w)) (drop (Z.to_nat (size (self w))) (cin w))) ->
  exists w' : world,
    main w = Done (tt, w') /\
    size (self w') = size (self w) - 1 /\
    position (self w') = hd (position (self w)) (drop (Z.to_nat (size (self w))) (cin w)) /\
    snapshot w' =
      after_removal (size (self w))
        (hd (position (self w)) (drop (Z.to_nat (size (self w))) (cin w)))
        (take (Z.to_nat (size (self w))) (fill (Z.to_nat (size (self w))) 0 (cin w) (arr w))) /\
    snapshot_vec w' = snapshot w' /\
    cout w' = cout w ++ prompt ++ render (snapshot w') (snapshot w') /\
    cin w' = drop (S (Z.to_nat (size (self w)))) (cin w) /\
    length (arr w') = length (arr w).
Proof.
  destruct w as [[vec pos n] ar ci co lg]. simpl. intros -> Hn Har Hp.
  unfold main.
  pose proof (input_run [] pos n ar ci co lg ltac:(lia) Har) as Hin.
  rewrite app_nil_l in Hin.
  rewrite (bind_Done _ _ _ _ _ Hin).
  match type of Hin with
  | _ = Done (tt, ?w0) => set (w1 := w0) in *
  end.
  assert (Hs1 : stored w1).
  { unfold stored, typed, w1. simpl. rewrite length_take, length_fill. lia. }
  destruct (del_elem_total w1 Hs1) as
    (w2 & Hdel & Hsz & Hpos & Hsnap & Hsnapv & Hla & _ & Hcin & Hcout & Hs2).
  { unfold w1. simpl. lia. }
  { exact Hp. }
  rewrite (bind_Done _ _ _ _ _ Hdel), (output_run w2 Hs2).
  assert (Heq : snapshot_vec w1 = snapshot w1).
  { unfold snapshot, snapshot_vec, w1. simpl. rewrite take_take. f_equal. lia. }
  rewrite Heq in Hsnapv. rewrite <- Hsnap in Hsnapv.
  eexists. split; [reflexivity |].
  change (snapshot (World (self w2) (arr w2) (cin w2)
                      (cout w2 ++ render (snapshot w2) (snapshot_vec w2))
                      (log w2 ++ reads ArrRead (Z.to_nat (size (self w2))) 0
                             ++ reads VecRead (Z.to_nat (size (self w2))) 0)))
    with (snapshot w2).
  change (snapshot_vec (World (self w2) (arr w2) (cin w2)
                      (cout w2 ++ render (snapshot w2) (snapshot_vec w2))
                      (log w2 ++ reads ArrRead (Z.to_nat (size (self w2))) 0
                             ++ reads VecRead (Z.to_nat (size (self w2))) 0)))
    with (snapshot_vec w2).
  cbn [self arr cin cout log size].
  rewrite Hsnapv, Hcout, Hcin, Hla, Hsnap, Hsz, Hpos.
  unfold next_position, snapshot, w1. cbn [self arr cin cout log size position].
  rewrite tail_drop, length_fill, <- app_assoc.
  repeat split; reflexivity.
Qed.

Lemma length_after_removal (n p : Z) (l : list Z) :
  1 <= n -> Z.of_nat (length l) = n ->
  Z.of_nat (length (after_removal n p l)) = n - 1.
Proof.
  intros Hn Hl. unfold after_removal.
  destruct ((0 <=? p) && (p <? n)) eqn:Hc.
  - apply andb_true_iff in Hc as [H1 H2]. apply Z.leb_le in H1. apply Z.ltb_lt in H2.
    rewrite length_delete; [lia |]. apply lookup_lt_is_Some. lia.
  - rewrite length_take. lia.
Qed.

(** [main] when the stream starts with ten integers [xs]: what is printed
    is decided by what follows them. *)
Lemma main_on_ten (init xs tl : list Z) :
  (10 <= length init)%nat -> length xs = 10%nat -> is_int (hd 0 tl) ->
  exists w : world,
    main (start init (xs ++ tl)) = Done (tt, w) /\
    size (self w) = 9 /\
    position (self w) = hd 0 tl /\
    snapshot w = after_removal 10 (hd 0 tl) xs /\
    snapshot_vec w = snapshot w /\
    cout w = prompt ++ render (snapshot w) (snapshot w) /\
    cin w = tail tl /\
    length (arr w) = length init.
Proof.
  intros Hinit Hxs Hp.
  assert (Hn : Z.to_nat 10 = length xs) by (rewrite Hxs; reflexivity).
  destruct (main_general (start init (xs ++ tl))) as
    (w & Hrun & Hsz & Hpos & Hsnap & Hsnapv & Hcout & Hcin & Hlen).
  - reflexivity.
  - simpl. lia.
  - simpl. lia.
  - unfold start, new_func. cbn [self size cin arr position].
    rewrite Hn, drop_app_length. exact Hp.
  - exists w. split; [exact Hrun |].
    unfold start, new_func in Hsz, Hpos, Hsnap, Hcout, Hcin, Hlen.
    cbn [self size cin arr position cout] in Hsz, Hpos, Hsnap, Hcout, Hcin, Hlen.
    rewrite Hn in Hpos, Hsnap, Hcin.
    rewrite drop_app_length in Hpos, Hsnap.
    rewrite (fill_full xs 0 tl init) in Hsnap by (simpl; lia).
    rewrite take_0, app_nil_l, take_app_length in Hsnap.
    rewrite <- tail_drop, drop_app_length in Hcin.
    rewrite app_nil_l in Hcout.
    split; [lia |]. repeat split; assumption.
Qed.

Lemma is_int_hd (d : Z) (l : list Z) : is_int d -> Forall is_int l -> is_int (hd d l).
Proof. intros Hd Hl. destruct Hl; [exact Hd | assumption]. Qed.

(** ** More on the shifting loop *)

(** The whole store after shifting from [p] up to the last valid cell:
    the valid prefix without cell [p], then the cells from [n - 1] on as
    they were. *)
Lemma shifts_whole (n p : nat) (l : list Z) :
  (p < n)%nat -> (n <= length l)%nat ->
  shifts (n - 1 - p) p l = delete p (take n l) ++ drop (n - 1) l.
Proof.
  intros Hp Hn.
  rewrite <- (take_drop (n - 1) (shifts (n - 1 - p) p l)).
  rewrite take_shifts by lia. f_equal.
  apply list_eq. intros j.
  rewrite !lookup_drop, lookup_shifts by lia.
  destruct (decide (p <= n - 1 + j < p + (n - 1 - p))%nat); [lia | reflexivity].
Qed.

Lemma length_shift_log (k : nat) (i : Z) : length (shift_log k i) = (4 * k)%nat.
Proof.
  revert i. induction k as [| k IH]; intros i; simpl; [reflexivity |].
  rewrite IH. lia.
Qed.

Lemma shift_log_within (k : nat) : forall i lo hi : Z,
  lo <= i -> i + Z.of_nat k < hi ->
  Forall (access_within lo hi) (shift_log k i).
Proof.
  induction k as [| k IH]; intros i lo hi Hlo Hhi; simpl; [constructor |].
  repeat (constructor; [simpl; lia |]).
  apply IH; lia.
Qed.

Lemma shift_log_writes (k : nat) : forall i lo hi : Z,
  lo <= i -> i + Z.of_nat k <= hi ->
  Forall (write_within lo hi) (shift_log k i).
Proof.
  induction k as [| k IH]; intros i lo hi Hlo Hhi; simpl; [constructor |].
  repeat (constructor; [simpl; lia || exact I |]).
  apply IH; lia.
Qed.

(** ** Loops that run off the end of their storage *)

(** A loop whose condition still holds one step past the storage it
    indexes (at offset [d] from its counter) ends in [Undefined]. *)
Lemma for_overrun (len : world -> nat) (I : world -> Prop)
    (cond : Z -> world -> bool) (body : Z -> M unit) (d : Z) :
  (forall w : world, I w -> Z.of_nat (len w) < 2 ^ 64) ->
  (forall (i : Z) (w : world),
     I w -> 0 <= i -> i + d <= Z.of_nat (len w) -> cond i w = true) ->
  (forall (i : Z) (w : world),
     I w -> 0 <= i -> Z.of_nat (len w) <= i + d -> cond i w = true ->
     body i w = Undefined) ->
  (forall (i : Z) (w : world),
     I w -> 0 <= i -> i + d < Z.of_nat (len w) ->
     body i w = Undefined \/
     exists w' : world, body i w = Done (tt, w') /\ I w' /\ len w' = len w) ->
  forall (k fuel : nat) (i : Z) (w : world),
    I w -> 0 <= d -> 0 <= i -> i + d <= Z.of_nat (len w) ->
    Z.of_nat (len w) <= i + d + Z.of_nat k -> (k < fuel)%nat ->
    for_ fuel i cond body w = Undefined.
Proof.
  intros Hlen Hcond Hfail Hstep.
  induction k as [| k IH]; intros fuel i w HI Hd Hi Hlo Hhi Hfuel;
    rewrite for_unfold, (Hcond i w HI Hi Hlo);
    (destruct fuel as [| fuel]; [lia |]).
  - rewrite (Hfail i w HI Hi ltac:(lia) (Hcond i w HI Hi Hlo)). reflexivity.
  - destruct (Z.le_gt_cases (Z.of_nat (len w)) (i + d)) as [Hge | Hlt].
    + rewrite (Hfail i w HI Hi Hge (Hcond i w HI Hi Hlo)). reflexivity.
    + destruct (Hstep i w HI Hi ltac:(lia)) as [Hu | (w' & Hb & HI' & Hl')].
      * rewrite Hu. reflexivity.
      * rewrite Hb. pose proof (Hlen w HI).
        rewrite wrap64_small by lia.
        apply IH; try assumption; try lia; rewrite Hl'; lia.
Qed.

Lemma input_overrun (w : world) :
  typed w -> Z.of_nat (length (arr w)) < size (self w) -> input w = Undefined.
Proof.
  intros Ht Hshort. unfold input, mbind, M_bind, arr_fuel.
  apply (for_overrun (fun w0 => length (arr w0))
           (fun w0 => typed w0 /\ Z.of_nat (length (arr w0)) < size (self w0))
           input_cond input_step 0) with (k := length (arr w));
    try (split; assumption); try lia.
  - unfold typed. intros w0 [? ?]. lia.
  - unfold input_cond. intros i w0 [? ?] ? ?. apply Z.ltb_lt. lia.
  - intros i w0 _ Hi Hge _. unfold input_step, mbind, M_bind, cin_arr.
    rewrite idx_None by lia. reflexivity.
  - intros i w0 [Ht0 Hs0] Hi Hlt. right.
    destruct w0 as [[vec pos n] ar ci co lg]. unfold typed in *. simpl in *.
    unfold input_step, mbind, M_bind, cin_arr, arr_get, vec_push_back, touch. simpl.
    rewrite <- (Z2Nat.id i) by lia.
    destruct (lookup_lt_is_Some_2 ar (Z.to_nat i)) as [a Ha]; [lia |].
    rewrite (idx_nat ar) by lia. rewrite Ha.
    destruct ci as [| x ci]; simpl.
    + rewrite (idx_nat ar) by lia. rewrite Ha.
      eexists. split; [reflexivity |]. simpl. repeat split; lia.
    + rewrite Nat2Z.id, idx_nat by (rewrite length_insert; lia).
      rewrite list_lookup_insert_eq by lia.
      eexists. split; [reflexivity |]. simpl.
      rewrite length_insert. repeat split; lia.
Qed.

Lemma print_arr_overrun (w : world) :
  typed w -> Z.of_nat (length (arr w)) < size (self w) ->
  for_ (S (length (arr w))) 0 input_cond print_arr w = Undefined.
Proof.
  intros Ht Hshort.
  apply (for_overrun (fun w0 => length (arr w0))
           (fun w0 => typed w0 /\ Z.of_nat (length (arr w0)) < size (self w0))
           input_cond print_arr 0) with (k := length (arr w));
    try (split; assumption); try lia.
  - unfold typed. intros w0 [? ?]. lia.
  - unfold input_cond. intros i w0 [? ?] ? ?. apply Z.ltb_lt. lia.
  - intros i w0 _ Hi Hge _. unfold print_arr, mbind, M_bind, cout_put, arr_get. simpl.
    rewrite idx_None by lia. reflexivity.
  - intros i w0 [Ht0 Hs0] Hi Hlt. right.
    destruct w0 as [[vec pos n] ar ci co lg]. unfold typed in *. simpl in *.
    unfold print_arr, mbind, M_bind, cout_put, arr_get, touch. simpl.
    rewrite <- (Z2Nat.id i) by lia.
    destruct (lookup_lt_is_Some_2 ar (Z.to_nat i)) as [a Ha]; [lia |].
    rewrite (idx_nat ar) by lia. rewrite Ha.
    eexists. split; [reflexivity |]. simpl. repeat split; lia.
Qed.

Lemma print_vec_overrun (w : world) :
  typed w -> Z.of_nat (length (vector1 (self w))) < size (self w) ->
  for_ (S (length (vector1 (self w)))) 0 input_cond print_vec w = Undefined.
Proof.
  intros Ht Hshort.
  apply (for_overrun (fun w0 => length (vector1 (self w0)))
           (fun w0 => typed w0 /\ Z.of_nat (length (vector1 (self w0))) < size (self w0))
           input_cond print_vec 0) with (k := length (vector1 (self w)));
    try (split; assumption); try lia.
  - unfold typed. intros w0 [? ?]. lia.
  - unfold input_cond. intros i w0 [? ?] ? ?. apply Z.ltb_lt. lia.
  - intros i w0 _ Hi Hge _. unfold print_vec, mbind, M_bind, cout_put, vec_get. simpl.
    rewrite idx_None by lia. reflexivity.
  - intros i w0 [Ht0 Hs0] Hi Hlt. right.
    destruct w0 as [[vec pos n] ar ci co lg]. unfold typed in *. simpl in *.
    unfold print_vec, mbind, M_bind, cout_put, vec_get, touch. simpl.
    rewrite <- (Z2Nat.id i) by lia.
    destruct (lookup_lt_is_Some_2 vec (Z.to_nat i)) as [a Ha]; [lia |].
    rewrite (idx_nat vec) by lia. rewrite Ha.
    eexists. split; [reflexivity |]. simpl. repeat split; lia.
Qed.

Lemma output_overrun (w : world) :
  typed w -> ~ stored w -> output w = Undefined.
Proof.
  intros Ht Hns.
  destruct w as [[vec pos n] ar ci co lg]. unfold stored, typed in *. simpl in *.
  unfold output, mbind, M_bind, cout_put at 1 2, arr_fuel. simpl.
  destruct (Z.le_gt_cases n (Z.of_nat (length ar))) as [Har | Har].
  - rewrite print_arr_all by (simpl; lia).
    unfold cout_put, vec_fuel. simpl.
    rewrite (print_vec_overrun (World (Func vec pos n) ar ci _ _)); [reflexivity | exact Ht |].
    simpl. lia.
  - rewrite (print_arr_overrun (World (Func vec pos n) ar ci _ lg)); [reflexivity | exact Ht |].
    simpl. lia.
Qed.

(** The shifting step fails as soon as cell [i + 1] is missing from one
    of the stores. *)
Lemma shift_step_fails (i : Z) (w : world) :
  0 <= i -> shift_cond i w = true ->
  Z.of_nat (length (arr w) `min` length (vector1 (self w))) <= i + 1 ->
  shift_step i w = Undefined.
Proof.
  intros Hi Hc Hlen. unfold shift_cond in Hc. apply Z.ltb_lt in Hc.
  pose proof (wrap64_range (size (self w) - 1)) as Hr.
  destruct w as [[vec pos n] ar ci co lg]. simpl in *.
  unfold shift_step, mbind, M_bind, arr_get, arr_set, vec_get, touch. simpl.
  rewrite wrap64_small by lia.
  destruct (Z.le_gt_cases (Z.of_nat (length ar)) (i + 1)) as [Ha | Ha].
  - rewrite idx_None by lia. reflexivity.
  - replace (i + 1) with (Z.of_nat (S (Z.to_nat i))) by lia.
    destruct (lookup_lt_is_Some_2 ar (S (Z.to_nat i))) as [a Hla]; [lia |].
    rewrite (idx_nat ar) by lia. rewrite Hla. simpl.
    destruct (idx ar i); [| reflexivity]. simpl.
    rewrite idx_None by lia. reflexivity.
Qed.

Lemma shift_overrun (w : world) (p : Z) :
  0 <= p -> p < wrap64 (size (self w) - 1) ->
  Z.of_nat (length (arr w) `min` length (vector1 (self w))) <= wrap64 (size (self w) - 1) ->
  for_ (S (length (arr w))) p shift_cond shift_step w = Undefined.
Proof.
  intros Hp Hc Hshort.
  set (len := fun w0 : world => (length (arr w0) `min` length (vector1 (self w0)))%nat).
  destruct (Z.le_gt_cases (p + 1) (Z.of_nat (len w))) as [Hin | Hout].
  - apply (for_overrun len
             (fun w0 => Z.of_nat (len w0) <= wrap64 (size (self w0) - 1))
             shift_cond shift_step 1) with (k := len w);
      try assumption; try lia; try (unfold len; lia).
    + intros w0 H0. pose proof (wrap64_range (size (self w0) - 1)). lia.
    + intros i w0 H0 Hi Hle. unfold shift_cond. apply Z.ltb_lt. lia.
    + intros i w0 _ Hi Hge Hcond. apply shift_step_fails; assumption.
    + intros i w0 H0 Hi Hlt. right.
      pose proof (wrap64_range (size (self w0) - 1)) as Hr.
      destruct w0 as [[vec pos n] ar ci co lg]. unfold len in *. simpl in *.
      destruct (lookup_lt_is_Some_2 ar (S (Z.to_nat i))) as [a Ha]; [lia |].
      destruct (lookup_lt_is_Some_2 vec (S (Z.to_nat i))) as [v Hv]; [lia |].
      pose proof (shift_step_ok (Z.to_nat i) vec pos n ar ci co lg a v
                    ltac:(lia) Ha Hv) as Hok.
      rewrite Z2Nat.id in Hok by lia.
      eexists. split; [exact Hok |]. simpl. rewrite !length_insert. split; [lia | reflexivity].
  - rewrite for_unfold.
    assert (Hcond : shift_cond p w = true) by (unfold shift_cond; apply Z.ltb_lt; exact Hc).
    rewrite Hcond, shift_step_fails by (assumption || (unfold len in Hout; lia)).
    reflexivity.
Qed.

(** A call whose loop is entered although one store is shorter than the
    loop bound is undefined. *)
Lemma del_elem_overrun (vec : list Z) (pos n : Z) (ar : list Z) (p : Z) (rest : list Z)
    (co : list out) (lg : list access) :
  wrap64 p < wrap64 (n - 1) ->
  Z.of_nat (length ar `min` length vec) <= wrap64 (n - 1) ->
  del_elem (World (Func vec pos n) ar (p :: rest) co lg) = Undefined.
Proof.
  intros Hp Hshort. rewrite del_elem_unfold.
  pose proof (shift_overrun (World (Func vec p n) ar rest (co ++ prompt) lg) (wrap64 p)
                (proj1 (wrap64_range p)) Hp Hshort) as Hloop.
  unfold mbind, M_bind. simpl in Hloop. rewrite Hloop. reflexivity.
Qed.

(** ** [input] on any stream *)

(** Once the stream has run out, the loop writes nothing more. *)
Lemma fill_short (s : list Z) : forall (k i : nat) (l : list Z),
  (length s <= k)%nat -> fill k i s l = fill (length s) i s l.
Proof.
  induction s as [| x s IH]; intros k i l Hk.
  - rewrite fill_nil. reflexivity.
  - destruct k as [| k]; [simpl in Hk; lia |]. simpl.
    apply IH. simpl in Hk. lia.
Qed.

(** The array after the loop of [input]: as many cells as the stream
    could serve are overwritten, the others keep their value. *)
Lemma fill_any (k : nat) (s l : list Z) :
  (k <= length l)%nat ->
  fill k 0 s l = take k s ++ drop (k `min` length s) l.
Proof.
  intros Hk. destruct (decide (k <= length s)%nat) as [Hle | Hgt].
  - rewrite <- (take_drop k s) at 1.
    assert (Hlen : length (take k s) = k) by (rewrite length_take; lia).
    rewrite <- Hlen at 1. rewrite fill_full by (simpl; lia).
    simpl. rewrite Hlen. f_equal. f_equal. lia.
  - rewrite fill_short by lia.
    rewrite <- (app_nil_r s) at 2. rewrite fill_full by (simpl; lia).
    simpl. rewrite take_ge by lia. f_equal. f_equal. lia.
Qed.

(** ** Deleting at two positions *)

Lemma delete_delete (l : list Z) (p q : nat) :
  (p <= q)%nat -> delete q (delete p l) = delete p (delete (S q) l).
Proof.
  intros Hpq. apply list_eq. intros j.
  destruct (decide (j < p)%nat) as [Hjp | Hjp].
  - rewrite list_lookup_delete_lt by lia.
    rewrite !list_lookup_delete_lt by lia. reflexivity.
  - destruct (decide (j < q)%nat) as [Hjq | Hjq].
    + rewrite list_lookup_delete_lt by lia.
      rewrite !list_lookup_delete_ge by lia.
      rewrite list_lookup_delete_lt by lia. reflexivity.
    + rewrite !list_lookup_delete_ge by lia. reflexivity.
Qed.

Lemma is_int_elems : Forall is_int elems.
Proof. unfold elems. repeat constructor; unfold is_int; lia. Defined.

(** ** Theorems *)

(** C1.  For a sequence whose [size] valid elements are held by both
    stores and a position [p] with [0 <= p < size], [del_elem] returns; the
    valid elements afterwards are the former ones with index [p] deleted,
    in the array and in the vector alike: every element before [p] stays
    where it was, every element after [p] has moved down by one index, and
    [size] went down by exactly 1. *)
Theorem del_elem_removes (w : world) (p : Z) (rest : list Z) :
  stored w -> cin w = p :: rest -> 0 <= p < size (self w) ->
  exists w' : world,
    del_elem w = Done (tt, w') /\
    size (self w') = size (self w) - 1 /\
    snapshot w' = delete (Z.to_nat p) (snapshot w) /\
    snapshot_vec w' = delete (Z.to_nat p) (snapshot_vec w) /\
    (forall i : nat, (i < Z.to_nat p)%nat -> snapshot w' !! i = snapshot w !! i) /\
    (forall i : nat, (Z.to_nat p <= i)%nat -> snapshot w' !! i = snapshot w !! S i) /\
    Z.of_nat (length (snapshot w')) = Z.of_nat (length (snapshot w)) - 1 /\
    stored w'.
Proof.
  destruct w as [[vec pos n] ar ci co lg]. unfold stored, typed, snapshot, snapshot_vec.
  simpl. intros (Hn & Har & Hvec) -> Hp.
  eexists. split; [apply del_elem_in_range; lia |]. simpl.
  replace (Z.to_nat (n - 1 - p)) with (Z.to_nat n - 1 - Z.to_nat p)%nat by lia.
  replace (Z.to_nat (n - 1)) with (Z.to_nat n - 1)%nat by lia.
  rewrite !take_shifts by lia.
  rewrite !length_shifts, length_delete, !length_take.
  - split; [lia |]. split; [reflexivity |]. split; [reflexivity |].
    split; [intros i Hi; apply list_lookup_delete_lt; exact Hi |].
    split; [intros i Hi; apply list_lookup_delete_ge; exact Hi |].
    repeat split; lia.
  - apply lookup_lt_is_Some. rewrite length_take. lia.
Qed.

Lemma del_elem_removes_witness :
  exists w' : world,
    del_elem populated = Done (tt, w') /\
    size (self w') = size (self populated) - 1 /\
    snapshot w' = delete (Z.to_nat 3) (snapshot populated) /\
    snapshot_vec w' = delete (Z.to_nat 3) (snapshot_vec populated) /\
    (forall i : nat, (i < Z.to_nat 3)%nat -> snapshot w' !! i = snapshot populated !! i) /\
    (forall i : nat, (Z.to_nat 3 <= i)%nat -> snapshot w' !! i = snapshot populated !! S i) /\
    Z.of_nat (length (snapshot w')) = Z.of_nat (length (snapshot populated)) - 1 /\
    stored w'.
Proof.
  apply (del_elem_removes populated 3 [8]);
    [exact (stored_populated [3; 8]) | reflexivity | simpl; lia].
Defined.

(** C7.  On a non-empty sequence, [del_elem] at position [size - 1] makes
    no iteration of its loop: no element of the array or of the vector is
    read or written (the access trace does not grow), so every element is
    unchanged, and [size] is decremented by 1. *)
Theorem del_elem_last (w : world) (rest : list Z) :
  1 <= size (self w) < 2 ^ 64 ->
  cin w = (size (self w) - 1) :: rest ->
  exists w' : world,
    del_elem w = Done (tt, w') /\
    arr w' = arr w /\
    vector1 (self w') = vector1 (self w) /\
    log w' = log w /\
    size (self w') = size (self w) - 1 /\
    snapshot w' = take (Z.to_nat (size (self w) - 1)) (arr w) /\
    snapshot_vec w' = take (Z.to_nat (size (self w) - 1)) (vector1 (self w)).
Proof.
  destruct w as [[vec pos n] ar ci co lg]. unfold snapshot, snapshot_vec. simpl.
  intros Hn ->.
  eexists. split; [apply del_elem_no_shift; lia |]. simpl.
  rewrite wrap64_small by lia. repeat split; reflexivity.
Qed.

Lemma del_elem_last_witness :
  exists w' : world,
    del_elem (World (Func [5; 3; 8; 9; 2; 7; 4; 6; 0; 0] 3 9)
                    [5; 3; 8; 9; 2; 7; 4; 6; 0; 0] [8] prompt []) = Done (tt, w') /\
    arr w' = [5; 3; 8; 9; 2; 7; 4; 6; 0; 0] /\
    vector1 (self w') = [5; 3; 8; 9; 2; 7; 4; 6; 0; 0] /\
    log w' = [] /\
    size (self w') = 9 - 1 /\
    snapshot w' = take (Z.to_nat (9 - 1)) [5; 3; 8; 9; 2; 7; 4; 6; 0; 0] /\
    snapshot_vec w' = take (Z.to_nat (9 - 1)) [5; 3; 8; 9; 2; 7; 4; 6; 0; 0].
Proof.
  apply (del_elem_last (World (Func [5; 3; 8; 9; 2; 7; 4; 6; 0; 0] 3 9)
                              [5; 3; 8; 9; 2; 7; 4; 6; 0; 0] [8] prompt []) []);
    [simpl; lia | reflexivity].
Defined.

(** C2, as the code has it.  [del_elem] has no error to report.  On a
    non-empty sequence ([1 <= size <= capacity]) an [int] position outside
    [[0, size)] makes it return normally without entering its loop: no
    element of the array or of the vector is read or written (the access
    trace does not grow), and [size] goes down by 1. *)
Theorem del_elem_out_of_range (w : world) (p : Z) (rest : list Z) :
  1 <= size (self w) <= capacity -> is_int p ->
  cin w = p :: rest -> ~ (0 <= p < size (self w)) ->
  exists w' : world,
    del_elem w = Done (tt, w') /\
    arr w' = arr w /\
    vector1 (self w') = vector1 (self w) /\
    log w' = log w /\
    size (self w') = size (self w) - 1.
Proof.
  destruct w as [[vec pos n] ar ci co lg]. unfold capacity. simpl.
  intros Hn Hp -> Hout.
  eexists. split.
  - apply del_elem_no_shift. apply wrap64_position_ge; [lia | exact Hp | lia].
  - simpl. rewrite wrap64_small by lia. repeat split; reflexivity.
Qed.

Lemma del_elem_out_of_range_witness :
  exists w' : world,
    del_elem (populated_with [10]) = Done (tt, w') /\
    arr w' = arr (populated_with [10]) /\
    vector1 (self w') = vector1 (self (populated_with [10])) /\
    log w' = log (populated_with [10]) /\
    size (self w') = size (self (populated_with [10])) - 1.
Proof.
  apply (del_elem_out_of_range (populated_with [10]) 10 []);
    [unfold capacity; simpl; lia | unfold is_int; lia | reflexivity | simpl; lia].
Defined.

(** C2 as stated fails: with ten valid elements and position 10 typed,
    [del_elem] returns normally instead of failing, and the logical
    length has changed from 10 to 9. *)
Lemma del_elem_out_of_range_not_rejected :
  ~ (0 <= 10 < size (self (populated_with [10]))) /\
  exists w' : world,
    del_elem (populated_with [10]) = Done (tt, w') /\
    size (self w') = 9 /\
    size (self w') <> size (self (populated_with [10])).
Proof.
  split; [simpl; lia |].
  eexists. split; [vm_compute; reflexivity |].
  split; [reflexivity | discriminate].
Qed.

(** What C9 says holds on every non-empty sequence.  On a non-empty
    sequence held by both stores ([1 <= size <= capacity]), [del_elem]
    returns for every [int] position and decrements [size] by exactly 1;
    when the position is outside [[0, size - 1)] it reads and writes no
    element, so the array, the vector and the access trace are
    unchanged. *)
Theorem del_elem_always_decrements (w : world) (p : Z) (rest : list Z) :
  stored w -> 1 <= size (self w) <= capacity -> is_int p ->
  cin w = p :: rest ->
  exists w' : world,
    del_elem w = Done (tt, w') /\
    size (self w') = size (self w) - 1 /\
    (~ (0 <= p < size (self w) - 1) ->
     arr w' = arr w /\ vector1 (self w') = vector1 (self w) /\ log w' = log w).
Proof.
  intros Hs Hn Hp Hcin.
  destruct (decide (0 <= p < size (self w) - 1)) as [Hin | Hout].
  - destruct (del_elem_valid w p rest Hs Hcin) as (w' & Hrun & Hsize & _); [lia |].
    exists w'. split; [exact Hrun |]. split; [exact Hsize |]. intros Hout. contradiction.
  - destruct w as [[vec pos n] ar ci co lg]. unfold capacity in Hn. simpl in *. subst ci.
    eexists. split.
    + apply del_elem_no_shift. apply wrap64_position_ge; [lia | exact Hp | exact Hout].
    + simpl. rewrite wrap64_small by lia. repeat split; reflexivity.
Qed.

Lemma del_elem_always_decrements_witness :
  exists w' : world,
    del_elem (populated_with [-1]) = Done (tt, w') /\
    size (self w') = size (self (populated_with [-1])) - 1 /\
    (~ (0 <= -1 < size (self (populated_with [-1])) - 1) ->
     arr w' = arr (populated_with [-1]) /\
     vector1 (self w') = vector1 (self (populated_with [-1])) /\
     log w' = log (populated_with [-1])).
Proof.
  apply (del_elem_always_decrements (populated_with [-1]) (-1) []);
    [exact (stored_populated [-1]) | unfold capacity; simpl; lia
    | unfold is_int; lia | reflexivity].
Defined.

(** C9, the code at its failing input.  The bound [size - 1] of the loop
    is there, as the comment in [del_elem] says, to avoid a segmentation
    fault, and it does on every non-empty sequence; on the empty one it
    wraps to [2 ^ 64 - 1].  Ten removals of the last element leave
    [size = 0] and the array as it was.  Position 0 is then outside
    [[0, size - 1)], yet the loop is entered: its first iteration
    overwrites [arr[0]], and the call runs off the end of the array
    instead of returning.  With position -1 the call returns, and [size]
    is [2 ^ 64 - 1], not one less than 0. *)
Lemma del_elem_on_empty_shifts :
  exists w0 w1 w2 : world,
    repeat_m 10 del_elem (populated_with [9; 8; 7; 6; 5; 4; 3; 2; 1; 0]) = Done (tt, w0) /\
    size (self w0) = 0 /\
    arr w0 = elems /\
    ~ (0 <= 0 < size (self w0) - 1) /\
    shift_cond (wrap64 0) w0 = true /\
    shift_step (wrap64 0) w0 = Done (tt, w1) /\
    arr w1 = [3; 3; 8; 1; 9; 2; 7; 4; 6; 0] /\
    arr w1 <> arr w0 /\
    del_elem (with_cin [0] w0) = Undefined /\
    del_elem (with_cin [-1] w0) = Done (tt, w2) /\
    size (self w2) = 2 ^ 64 - 1 /\
    size (self w2) <> size (self w0) - 1.
Proof.
  do 3 eexists.
  split; [vm_compute; reflexivity |].
  split; [reflexivity |].
  split; [reflexivity |].
  split; [simpl; lia |].
  split; [vm_compute; reflexivity |].
  split; [vm_compute; reflexivity |].
  split; [reflexivity |].
  split; [discriminate |].
  split; [vm_compute; reflexivity |].
  split; [vm_compute; reflexivity |].
  split; [reflexivity | discriminate].
Qed.

(** C3, as the code has it.  From a sequence of [L = size] elements held
    by both stores, [L] removals at positions that are valid in turn all
    return; after [k] of them [size] is [L - k] and the valid elements are
    the former ones with those [k] positions deleted one after the other
    (one element fewer per removal), and after all [L] the sequence is
    empty.  Nothing is said about a further removal. *)
Theorem removals_to_empty (w : world) (ps rest : list Z) :
  stored w -> cin w = ps ++ rest ->
  Z.of_nat (length ps) = size (self w) ->
  valid_positions (size (self w)) ps ->
  (forall k : nat, (k <= length ps)%nat ->
     exists wk : world,
       repeat_m k del_elem w = Done (tt, wk) /\
       size (self wk) = size (self w) - Z.of_nat k /\
       snapshot wk = delete_all (take k ps) (snapshot w) /\
       snapshot_vec wk = delete_all (take k ps) (snapshot_vec w) /\
       Z.of_nat (length (snapshot wk)) = size (self w) - Z.of_nat k) /\
  exists w' : world,
    repeat_m (length ps) del_elem w = Done (tt, w') /\
    size (self w') = 0 /\ snapshot w' = [] /\ snapshot_vec w' = [].
Proof.
  intros Hs Hcin Hlen Hv.
  assert (Hsnap : Z.of_nat (length (snapshot w)) = size (self w)).
  { destruct Hs as (Ht & Har & _). unfold snapshot, typed in *.
    rewrite length_take. lia. }
  split.
  - intros k Hk.
    destruct (removals_run (take k ps) w (drop k ps ++ rest) Hs) as
      (wk & Hrun & Hsize & Hsn & Hsnv & Hl & _).
    + rewrite app_assoc, take_drop. exact Hcin.
    + apply valid_positions_take. exact Hv.
    + rewrite length_take in Hrun, Hsize, Hl.
      replace (length ps `min` k)%nat with k in * by lia.
      replace (k `min` length ps)%nat with k in * by lia.
      exists wk. repeat split; try assumption. lia.
  - destruct (removals_run ps w rest Hs Hcin Hv) as
      (w' & Hrun & Hsize & _ & _ & Hl & _ & Hs').
    exists w'. split; [exact Hrun |].
    assert (H0 : size (self w') = 0) by lia.
    split; [exact H0 |].
    unfold snapshot, snapshot_vec. rewrite H0. split; reflexivity.
Qed.

Lemma removals_to_empty_witness :
  (forall k : nat, (k <= length [3; 8; 0; 0; 0; 0; 0; 0; 1; 0])%nat ->
     exists wk : world,
       repeat_m k del_elem (populated_with [3; 8; 0; 0; 0; 0; 0; 0; 1; 0]) = Done (tt, wk) /\
       size (self wk) = 10 - Z.of_nat k /\
       snapshot wk = delete_all (take k [3; 8; 0; 0; 0; 0; 0; 0; 1; 0]) elems /\
       snapshot_vec wk = delete_all (take k [3; 8; 0; 0; 0; 0; 0; 0; 1; 0]) elems /\
       Z.of_nat (length (snapshot wk)) = 10 - Z.of_nat k) /\
  exists w' : world,
    repeat_m (length [3; 8; 0; 0; 0; 0; 0; 0; 1; 0]) del_elem
      (populated_with [3; 8; 0; 0; 0; 0; 0; 0; 1; 0]) = Done (tt, w') /\
    size (self w') = 0 /\ snapshot w' = [] /\ snapshot_vec w' = [].
Proof.
  apply (removals_to_empty (populated_with [3; 8; 0; 0; 0; 0; 0; 0; 1; 0])
           [3; 8; 0; 0; 0; 0; 0; 0; 1; 0] []);
    [exact (stored_populated _) | reflexivity | reflexivity | simpl; lia].
Defined.

(** C3 as stated fails in its last part: after ten valid removals the
    sequence is empty, and one more [del_elem] is not rejected.  With
    position 0 the loop runs ([size - 1] wraps) until it reads past the
    end of the array; with position -1 the call returns normally and has
    changed [size] from 0 to [2 ^ 64 - 1]. *)
Lemma removal_on_empty_not_rejected :
  exists w0 w1 : world,
    repeat_m 10 del_elem (populated_with [3; 8; 0; 0; 0; 0; 0; 0; 1; 0]) = Done (tt, w0) /\
    size (self w0) = 0 /\
    del_elem (with_cin [0] w0) = Undefined /\
    del_elem (with_cin [-1] w0) = Done (tt, w1) /\
    size (self w1) = 2 ^ 64 - 1 /\
    size (self w1) <> size (self w0).
Proof.
  do 2 eexists.
  split; [vm_compute; reflexivity |].
  split; [reflexivity |].
  split; [vm_compute; reflexivity |].
  split; [vm_compute; reflexivity |].
  split; [reflexivity | discriminate].
Qed.

(** C4, as the code has it.  [input] takes no count: it reads exactly
    [size] integers.  On an object whose vector is still empty, with
    [size] cells in the array and a source that offers (at least) the
    [size] values [xs], all of them [int]s, [input] followed immediately
    by [output] prints exactly [xs], in order, for the array and for the
    vector; the valid elements of both stores are [xs], and [size] is
    unchanged, equal to the count of [xs]. *)
Theorem input_then_output (w : world) (xs rest : list Z) :
  typed w -> vector1 (self w) = [] ->
  size (self w) <= Z.of_nat (length (arr w)) ->
  cin w = xs ++ rest -> Z.of_nat (length xs) = size (self w) ->
  Forall is_int xs ->
  exists w1 w2 : world,
    input w = Done (tt, w1) /\
    output w1 = Done (tt, w2) /\
    size (self w1) = Z.of_nat (length xs) /\
    snapshot w1 = xs /\
    snapshot_vec w1 = xs /\
    cin w1 = rest /\
    cout w2 = cout w ++ render xs xs.
Proof.
  intros Ht Hvec Har Hcin Hlen _.
  pose proof (input_full w Ht Har) as Hrun.
  rewrite Hcin, length_app in Hrun. specialize (Hrun ltac:(lia)).
  replace (Z.to_nat (size (self w))) with (length xs) in Hrun by lia.
  rewrite take_app_length, drop_app_length, Hvec in Hrun. simpl in Hrun.
  eexists. eexists. split; [exact Hrun |].
  assert (Hs1 : stored
                  (World (Func xs (position (self w)) (size (self w)))
                         (xs ++ drop (length xs) (arr w)) rest (cout w)
                         (log w ++ input_log (length xs) 0 (xs ++ rest)))).
  { unfold stored, typed in *. simpl. rewrite length_app, length_drop. lia. }
  split; [apply (output_run _ Hs1) |].
  unfold snapshot, snapshot_vec. simpl.
  replace (Z.to_nat (size (self w))) with (length xs) by lia.
  rewrite take_app_length, firstn_all.
  repeat split; try reflexivity. lia.
Qed.

Lemma input_then_output_witness :
  exists w1 w2 : world,
    input (start (replicate 10 0) (elems ++ [3; 8])) = Done (tt, w1) /\
    output w1 = Done (tt, w2) /\
    size (self w1) = Z.of_nat (length elems) /\
    snapshot w1 = elems /\
    snapshot_vec w1 = elems /\
    cin w1 = [3; 8] /\
    cout w2 = cout (start (replicate 10 0) (elems ++ [3; 8])) ++ render elems elems.
Proof.
  apply (input_then_output (start (replicate 10 0) (elems ++ [3; 8])) elems [3; 8]);
    [unfold typed; simpl; lia | reflexivity | simpl; lia | reflexivity | reflexivity
    | exact is_int_elems].
Defined.

(** C4 as stated fails for a count below the capacity: with the three
    integers 1, 2, 3 on the stream and an array the caller has filled
    with zeros, [input] still pushes ten cells and leaves [size] at 10,
    so the valid elements are not the input sequence. *)
Lemma input_short_stream :
  Z.of_nat (length [1; 2; 3]) <= capacity /\
  exists w1 : world,
    input (start (replicate 10 0) [1; 2; 3]) = Done (tt, w1) /\
    snapshot w1 = [1; 2; 3; 0; 0; 0; 0; 0; 0; 0] /\
    snapshot w1 <> [1; 2; 3] /\
    snapshot_vec w1 <> [1; 2; 3] /\
    size (self w1) = 10 /\
    size (self w1) <> Z.of_nat (length [1; 2; 3]).
Proof.
  split; [unfold capacity; simpl; lia |].
  eexists. split; [vm_compute; reflexivity |].
  split; [reflexivity |].
  split; [discriminate |].
  split; [discriminate |].
  split; [reflexivity | discriminate].
Qed.

(** C5, as the code has it.  [input] takes no count and has no error to
    report.  When the source offers more values than [size], all of them
    [int]s, [input] returns normally: it stores the first [size] of them,
    in order, in the cells [[0, size)] of the array and appends them to
    the vector; the cells of the array from [size] on are untouched, the
    surplus stays unread on the stream, and [size] is unchanged. *)
Theorem input_surplus (w : world) :
  typed w ->
  size (self w) <= Z.of_nat (length (arr w)) ->
  size (self w) < Z.of_nat (length (cin w)) ->
  Forall is_int (cin w) ->
  exists w1 : world,
    input w = Done (tt, w1) /\
    size (self w1) = size (self w) /\
    snapshot w1 = take (Z.to_nat (size (self w))) (cin w) /\
    vector1 (self w1) = vector1 (self w) ++ take (Z.to_nat (size (self w))) (cin w) /\
    drop (Z.to_nat (size (self w))) (arr w1) = drop (Z.to_nat (size (self w))) (arr w) /\
    length (arr w1) = length (arr w) /\
    cin w1 = drop (Z.to_nat (size (self w))) (cin w) /\
    cin w1 <> [].
Proof.
  intros Ht Har Hcin _.
  eexists. split; [apply (input_full w Ht Har); lia |].
  unfold snapshot, typed in *. simpl.
  assert (Hlen : length (take (Z.to_nat (size (self w))) (cin w)) = Z.to_nat (size (self w)))
    by (rewrite length_take; lia).
  rewrite take_app_length' by (symmetry; exact Hlen).
  rewrite drop_app_length' by (symmetry; exact Hlen).
  rewrite length_app, length_drop, Hlen.
  repeat split; try reflexivity; try lia.
  intros Hnil. apply (f_equal length) in Hnil. rewrite length_drop in Hnil.
  simpl in Hnil. lia.
Qed.

Lemma input_surplus_witness :
  exists w1 : world,
    input (start (replicate 10 0) (elems ++ [11])) = Done (tt, w1) /\
    size (self w1) = 10 /\
    snapshot w1 = elems /\
    vector1 (self w1) = [] ++ elems /\
    drop 10 (arr w1) = [] /\
    length (arr w1) = 10%nat /\
    cin w1 = [11] /\
    cin w1 <> [].
Proof.
  apply (input_surplus (start (replicate 10 0) (elems ++ [11])));
    [unfold typed; simpl; lia | simpl; lia | simpl; lia
    | repeat constructor; unfold is_int; lia].
Defined.

(** C5 as stated fails: with eleven integers on the stream, one more than
    the capacity, [input] returns normally instead of failing, and it has
    written the first ten into the array and the vector. *)
Lemma input_surplus_not_rejected :
  capacity < Z.of_nat (length (elems ++ [11])) /\
  exists w1 : world,
    input (start (replicate 10 0) (elems ++ [11])) = Done (tt, w1) /\
    arr w1 = elems /\
    vector1 (self w1) = elems /\
    arr w1 <> arr (start (replicate 10 0) (elems ++ [11])) /\
    vector1 (self w1) <> vector1 (self (start (replicate 10 0) (elems ++ [11]))).
Proof.
  split; [unfold capacity; simpl; lia |].
  eexists. split; [vm_compute; reflexivity |].
  split; [reflexivity |].
  split; [reflexivity |].
  split; discriminate.
Qed.

(** C6, as the code has it.  A new object has [size = capacity].  [input]
    and [output] never change [size]; only [del_elem] does, and called on
    a non-empty sequence it lowers [size] by exactly 1.  So
    [0 <= size <= capacity] is kept by every call made while that holds,
    provided [del_elem] is called on a non-empty sequence; and after any
    run of calls that starts from [size = capacity] and makes at most
    [capacity] removals, [size] is [capacity] minus the number of
    removals. *)
Theorem size_within_capacity :
  size new_func = capacity /\
  (forall (o : op) (w w' : world),
     0 <= size (self w) <= capacity ->
     (o = OpDelElem -> 1 <= size (self w)) ->
     exec o w = Done (tt, w') ->
     0 <= size (self w') <= capacity /\
     size (self w') =
       match o with
       | OpDelElem => size (self w) - 1
       | _ => size (self w)
       end) /\
  (forall (ops : list op) (w w' : world),
     size (self w) = capacity ->
     removals ops <= capacity ->
     run ops w = Done (tt, w') ->
     size (self w') = capacity - removals ops /\
     0 <= size (self w') <= capacity).
Proof.
  unfold capacity. split; [reflexivity |]. split.
  - intros o w w' Hn Hdel Hrun.
    pose proof (exec_size o w w' Hrun) as H1.
    destruct o.
    + lia.
    + specialize (Hdel eq_refl). rewrite wrap64_small in H1 by lia. lia.
    + lia.
  - intros ops w w' Hn Hr Hrun.
    pose proof (removals_nonneg ops) as Hnn.
    rewrite (run_size ops w w') by (lia || exact Hrun). lia.
Qed.

Lemma size_within_capacity_witness :
  size (self (World (Func [5; 3; 8; 9; 2; 7; 4; 6; 0; 0] 3 9)
                    [5; 3; 8; 9; 2; 7; 4; 6; 0; 0] [8] prompt (shift_log 6 3)))
    = capacity - removals [OpDelElem] /\
  0 <= size (self (World (Func [5; 3; 8; 9; 2; 7; 4; 6; 0; 0] 3 9)
                         [5; 3; 8; 9; 2; 7; 4; 6; 0; 0] [8] prompt (shift_log 6 3)))
    <= capacity.
Proof.
  apply (proj2 (proj2 size_within_capacity) [OpDelElem] populated);
    [reflexivity | unfold capacity; simpl; lia | vm_compute; reflexivity].
Defined.

(** C6 as stated fails: [input], ten removals and an eleventh removal
    with position -1 all return, and leave [size = 2 ^ 64 - 1], far
    above the capacity. *)
Lemma size_exceeds_capacity :
  exists w' : world,
    run (OpInput :: replicate 11 OpDelElem)
        (start (replicate 10 0) (elems ++ replicate 10 0 ++ [-1])) = Done (tt, w') /\
    size (self w') = 2 ^ 64 - 1 /\
    ~ (0 <= size (self w') <= capacity).
Proof.
  eexists. split; [vm_compute; reflexivity |].
  split; [reflexivity |].
  unfold capacity. simpl. lia.
Qed.

(** C8.  In any state whose [size] valid elements are held by both
    stores, [output] returns and leaves the object, the array and the
    input stream unchanged; it prints the elements at the indices
    [[0, size)] in order.  Called [k] times in a row it prints that same
    rendering [k] times. *)
Theorem output_idempotent (w : world) :
  stored w ->
  (exists w' : world,
     output w = Done (tt, w') /\
     self w' = self w /\ arr w' = arr w /\ cin w' = cin w /\
     cout w' = cout w ++ render (snapshot w) (snapshot_vec w)) /\
  (forall k : nat,
     exists wk : world,
       repeat_m k output w = Done (tt, wk) /\
       self wk = self w /\ arr wk = arr w /\ cin wk = cin w /\
       cout wk = cout w ++ concat (replicate k (render (snapshot w) (snapshot_vec w)))).
Proof.
  intros Hs. split.
  - eexists. split; [apply (output_run w Hs) |]. repeat split; reflexivity.
  - intros k. revert w Hs. induction k as [| k IH]; intros w Hs.
    + exists w. simpl. rewrite app_nil_r. repeat split; reflexivity.
    + pose proof (output_run w Hs) as Hrun.
      rewrite (repeat_m_S _ _ _ _ Hrun).
      match goal with
      | |- context [repeat_m k output ?w1] =>
          destruct (IH w1 Hs) as (wk & Hk & Hself & Harr & Hcin & Hcout)
      end.
      exists wk. split; [exact Hk |].
      split; [exact Hself |]. split; [exact Harr |]. split; [exact Hcin |].
      rewrite Hcout. simpl. rewrite <- app_assoc. reflexivity.
Qed.

Lemma output_idempotent_witness :
  (exists w' : world,
     output populated = Done (tt, w') /\
     self w' = self populated /\ arr w' = arr populated /\ cin w' = cin populated /\
     cout w' = cout populated ++ render (snapshot populated) (snapshot_vec populated)) /\
  (forall k : nat,
     exists wk : world,
       repeat_m k output populated = Done (tt, wk) /\
       self wk = self populated /\ arr wk = arr populated /\ cin wk = cin populated /\
       cout wk = cout populated
                   ++ concat (replicate k (render (snapshot populated) (snapshot_vec populated)))).
Proof. apply (output_idempotent populated). exact (stored_populated [3; 8]). Defined.

(** C10.  The two stores stay in lockstep.  After [input] on an object
    whose vector is still empty, [arr[i]] and [vector1[i]] exist and are
    equal for every [i] in [[0, size)], whatever the stream held; and from
    any state in lockstep, [del_elem] at a position in [[0, size)] returns
    and leaves the stores in lockstep for the new [size]. *)
Theorem stores_in_lockstep :
  (forall w : world,
     typed w -> vector1 (self w) = [] ->
     size (self w) <= Z.of_nat (length (arr w)) ->
     exists w' : world, input w = Done (tt, w') /\ typed w' /\ lockstep w') /\
  (forall (w : world) (p : Z) (rest : list Z),
     typed w -> lockstep w -> cin w = p :: rest -> 0 <= p < size (self w) ->
     exists w' : world, del_elem w = Done (tt, w') /\ typed w' /\ lockstep w').
Proof.
  split.
  - intros [[vec pos n] ar ci co lg]. unfold typed. simpl. intros Hn -> Har.
    eexists. split; [apply input_run; lia |]. split; [exact Hn |].
    apply lockstep_of_snapshots.
    + unfold stored, typed. simpl. rewrite length_take, length_fill. lia.
    + unfold snapshot, snapshot_vec. simpl. rewrite take_take.
      f_equal. lia.
  - intros w p rest Ht Hl Hcin Hp.
    pose proof (lockstep_stored w Ht Hl) as Hs.
    destruct (del_elem_valid w p rest Hs Hcin Hp)
      as (w' & Hrun & _ & Hsnap & Hsnapv & _ & _ & Hs').
    exists w'. split; [exact Hrun |]. split; [apply Hs' |].
    apply lockstep_of_snapshots; [exact Hs' |].
    rewrite Hsnap, Hsnapv, (lockstep_snapshots w Ht Hl). reflexivity.
Qed.

Lemma lockstep_populated : lockstep populated.
Proof.
  apply lockstep_of_snapshots; [exact (stored_populated [3; 8]) | reflexivity].
Defined.

Lemma stores_in_lockstep_witness :
  (exists w' : world,
     input (start (replicate 10 0) (elems ++ [3; 8])) = Done (tt, w') /\
     typed w' /\ lockstep w') /\
  (exists w' : world, del_elem populated = Done (tt, w') /\ typed w' /\ lockstep w').
Proof.
  split.
  - apply (proj1 stores_in_lockstep (start (replicate 10 0) (elems ++ [3; 8])));
      [unfold typed; simpl; lia | reflexivity | simpl; lia].
  - apply (proj2 stores_in_lockstep populated 3 [8]);
      [unfold typed; simpl; lia | exact lockstep_populated | reflexivity | simpl; lia].
Defined.

(** ** The program as a whole, and further properties of its functions *)

(** X1.  [main] on an array of at least ten cells: when the stream holds
    ten [int]s [xs] followed by a position [p] in [[0, 10)], the program
    returns and prints, after the prompt, [xs] with index [p] deleted,
    once for the array and once for the vector; nothing after [p] is
    read. *)
Theorem main_deletes_chosen (init xs rest : list Z) (p : Z) :
  (10 <= length init)%nat -> length xs = 10%nat -> Forall is_int xs ->
  0 <= p < 10 ->
  exists w : world,
    main (start init (xs ++ p :: rest)) = Done (tt, w) /\
    cout w = prompt ++ render (delete (Z.to_nat p) xs) (delete (Z.to_nat p) xs) /\
    size (self w) = 9 /\
    cin w = rest.
Proof.
  intros Hinit Hxs _ Hp.
  destruct (main_on_ten init xs (p :: rest) Hinit Hxs) as
    (w & Hrun & Hsz & _ & Hsnap & _ & Hcout & Hcin & _).
  { unfold is_int. simpl. lia. }
  exists w. split; [exact Hrun |].
  unfold after_removal in Hsnap. simpl hd in Hsnap.
  destruct (Z.leb_spec 0 p); [| lia]. destruct (Z.ltb_spec p 10); [| lia].
  simpl in Hsnap. rewrite Hcout, Hsnap. repeat split; assumption.
Qed.

Lemma main_deletes_chosen_witness :
  exists w : world,
    main (start (replicate 10 0) (elems ++ 3 :: [8])) = Done (tt, w) /\
    cout w = prompt ++ render (delete (Z.to_nat 3) elems) (delete (Z.to_nat 3) elems) /\
    size (self w) = 9 /\
    cin w = [8].
Proof.
  apply (main_deletes_chosen (replicate 10 0) elems [8] 3);
    [simpl; lia | reflexivity | exact is_int_elems | lia].
Defined.

(** X2.  [main] on an array of at least ten cells: when ten [int]s [xs]
    are followed by an [int] outside [[0, 10)], the program still returns
    normally and prints the first nine integers of [xs]: the last one is
    dropped without any message. *)
Theorem main_out_of_range_drops_last (init xs rest : list Z) (p : Z) :
  (10 <= length init)%nat -> length xs = 10%nat -> Forall is_int xs ->
  is_int p -> ~ (0 <= p < 10) ->
  exists w : world,
    main (start init (xs ++ p :: rest)) = Done (tt, w) /\
    cout w = prompt ++ render (take 9 xs) (take 9 xs) /\
    size (self w) = 9.
Proof.
  intros Hinit Hxs _ Hp Hout.
  destruct (main_on_ten init xs (p :: rest) Hinit Hxs Hp) as
    (w & Hrun & Hsz & _ & Hsnap & _ & Hcout & _).
  exists w. split; [exact Hrun |].
  unfold after_removal in Hsnap. simpl hd in Hsnap.
  destruct ((0 <=? p) && (p <? 10)) eqn:Hc.
  - apply andb_true_iff in Hc as [H1 H2]. apply Z.leb_le in H1. apply Z.ltb_lt in H2. lia.
  - change (Z.to_nat (10 - 1)) with 9%nat in Hsnap.
    rewrite Hcout, Hsnap. split; [reflexivity | exact Hsz].
Qed.

Lemma main_out_of_range_drops_last_witness :
  exists w : world,
    main (start (replicate 10 0) (elems ++ 42 :: [])) = Done (tt, w) /\
    cout w = prompt ++ render (take 9 elems) (take 9 elems) /\
    size (self w) = 9.
Proof.
  apply (main_out_of_range_drops_last (replicate 10 0) elems [] 42);
    [simpl; lia | reflexivity | exact is_int_elems | unfold is_int; lia | lia].
Defined.

(** X3.  [main] on an array of at least ten cells: when the stream ends
    after ten [int]s [xs], [position] keeps its initial value 0 and the
    program prints [xs] without its first element. *)
Theorem main_no_position_deletes_first (init xs : list Z) :
  (10 <= length init)%nat -> length xs = 10%nat -> Forall is_int xs ->
  exists w : world,
    main (start init xs) = Done (tt, w) /\
    cout w = prompt ++ render (drop 1 xs) (drop 1 xs) /\
    position (self w) = 0 /\
    size (self w) = 9.
Proof.
  intros Hinit Hxs _.
  destruct (main_on_ten init xs [] Hinit Hxs) as
    (w & Hrun & Hsz & Hpos & Hsnap & _ & Hcout & _).
  { unfold is_int. simpl. lia. }
  rewrite app_nil_r in Hrun.
  exists w. split; [exact Hrun |].
  unfold after_removal in Hsnap. simpl in Hsnap, Hpos.
  rewrite Hcout, Hsnap.
  split; [destruct xs; reflexivity |]. split; assumption.
Qed.

Lemma main_no_position_deletes_first_witness :
  exists w : world,
    main (start (replicate 10 0) elems) = Done (tt, w) /\
    cout w = prompt ++ render (drop 1 elems) (drop 1 elems) /\
    position (self w) = 0 /\
    size (self w) = 9.
Proof.
  apply (main_no_position_deletes_first (replicate 10 0) elems);
    [simpl; lia | reflexivity | exact is_int_elems].
Defined.

(** X4.  [main] makes no access outside the array or the vector once
    ten integers are supplied: with an array of at least ten cells and
    any stream of [int]s that holds at least ten of them (so that [input]
    writes every cell before it is read), whatever follows the ten, a
    position in range, an [int] out of range or nothing at all, the
    program returns; it leaves [size = 9] and prints the same nine valid
    elements for the array and for the vector. *)
Theorem main_safe (init stream : list Z) :
  (10 <= length init)%nat -> Forall is_int stream -> (10 <= length stream)%nat ->
  exists w : world,
    main (start init stream) = Done (tt, w) /\
    size (self w) = 9 /\
    length (snapshot w) = 9%nat /\
    snapshot_vec w = snapshot w /\
    cout w = prompt ++ render (snapshot w) (snapshot w) /\
    length (arr w) = length init.
Proof.
  intros Hinit Hstream _.
  destruct (main_general (start init stream)) as
    (w & Hrun & Hsz & _ & Hsnap & Hsnapv & Hcout & _ & Hlen).
  - reflexivity.
  - simpl. lia.
  - simpl. lia.
  - apply is_int_hd; [unfold is_int; simpl; lia |]. apply Forall_drop. exact Hstream.
  - exists w. split; [exact Hrun |].
    unfold start, new_func in Hsz, Hsnap, Hcout, Hlen.
    cbn [self size cin arr position cout] in Hsz, Hsnap, Hcout, Hlen.
    rewrite app_nil_l in Hcout.
    split; [lia |]. split; [| repeat split; assumption].
    rewrite Hsnap. apply Nat2Z.inj.
    rewrite length_after_removal; [reflexivity | lia |].
    rewrite length_take, length_fill. lia.
Qed.

Lemma main_safe_witness :
  exists w : world,
    main (start (replicate 10 0) (elems ++ [-4; 7])) = Done (tt, w) /\
    size (self w) = 9 /\
    length (snapshot w) = 9%nat /\
    snapshot_vec w = snapshot w /\
    cout w = prompt ++ render (snapshot w) (snapshot w) /\
    length (arr w) = length (replicate 10 0).
Proof.
  apply (main_safe (replicate 10 0) (elems ++ [-4; 7]));
    [simpl; lia | repeat constructor; unfold is_int; lia | simpl; lia].
Defined.

(** X5.  A removal at a valid position never shrinks either store and
    writes nothing from index [size - 1] on: the array (and the vector)
    afterwards is the old valid prefix without index [p], followed by the
    old cells from [size - 1] on.  So the former last element stays, as a
    stale copy, in the first cell past the new valid range. *)
Theorem del_elem_whole_stores (w : world) (p : Z) (rest : list Z) :
  stored w -> cin w = p :: rest -> 0 <= p < size (self w) ->
  exists w' : world,
    del_elem w = Done (tt, w') /\
    arr w' = delete (Z.to_nat p) (snapshot w)
               ++ drop (Z.to_nat (size (self w) - 1)) (arr w) /\
    vector1 (self w') = delete (Z.to_nat p) (snapshot_vec w)
                          ++ drop (Z.to_nat (size (self w) - 1)) (vector1 (self w)) /\
    length (arr w') = length (arr w) /\
    length (vector1 (self w')) = length (vector1 (self w)) /\
    arr w' !! Z.to_nat (size (self w')) = arr w !! Z.to_nat (size (self w) - 1) /\
    vector1 (self w') !! Z.to_nat (size (self w'))
      = vector1 (self w) !! Z.to_nat (size (self w) - 1).
Proof.
  destruct w as [[vec pos n] ar ci co lg]. unfold stored, typed, snapshot, snapshot_vec.
  simpl. intros (Hn & Har & Hvec) -> Hp.
  eexists. split; [apply del_elem_in_range; lia |]. simpl.
  replace (Z.to_nat (n - 1 - p)) with (Z.to_nat n - 1 - Z.to_nat p)%nat by lia.
  replace (Z.to_nat (n - 1)) with (Z.to_nat n - 1)%nat by lia.
  rewrite !shifts_whole by lia.
  assert (Hlen : forall l : list Z, Z.of_nat (length l) >= n ->
            length (delete (Z.to_nat p) (take (Z.to_nat n) l)) = (Z.to_nat n - 1)%nat).
  { intros l Hl. rewrite length_delete, length_take; [lia |].
    apply lookup_lt_is_Some. rewrite length_take. lia. }
  split; [reflexivity |]. split; [reflexivity |].
  rewrite !length_app, !length_drop, !Hlen by lia.
  split; [lia |]. split; [lia |].
  split.
  - rewrite lookup_app_r by (rewrite Hlen; lia).
    rewrite Hlen, lookup_drop by lia. f_equal. lia.
  - rewrite lookup_app_r by (rewrite Hlen; lia).
    rewrite Hlen, lookup_drop by lia. f_equal. lia.
Qed.

Lemma del_elem_whole_stores_witness :
  exists w' : world,
    del_elem populated = Done (tt, w') /\
    arr w' = delete (Z.to_nat 3) (snapshot populated)
               ++ drop (Z.to_nat (size (self populated) - 1)) (arr populated) /\
    vector1 (self w') = delete (Z.to_nat 3) (snapshot_vec populated)
                          ++ drop (Z.to_nat (size (self populated) - 1))
                               (vector1 (self populated)) /\
    length (arr w') = length (arr populated) /\
    length (vector1 (self w')) = length (vector1 (self populated)) /\
    arr w' !! Z.to_nat (size (self w')) = arr populated !! Z.to_nat (size (self populated) - 1) /\
    vector1 (self w') !! Z.to_nat (size (self w'))
      = vector1 (self populated) !! Z.to_nat (size (self populated) - 1).
Proof.
  apply (del_elem_whole_stores populated 3 [8]);
    [exact (stored_populated [3; 8]) | reflexivity | simpl; lia].
Defined.

(** X6.  A removal at a valid position [p] makes exactly [size - 1 - p]
    iterations, each reading and writing one cell of the array and of the
    vector: the call makes [4 * (size - 1 - p)] element accesses, all of
    them at indices in [[p, size)], and all writes at indices in
    [[p, size - 1)]. *)
Theorem del_elem_access_bounds (w : world) (p : Z) (rest : list Z) :
  stored w -> cin w = p :: rest -> 0 <= p < size (self w) ->
  exists (w' : world) (tr : list access),
    del_elem w = Done (tt, w') /\
    log w' = log w ++ tr /\
    Z.of_nat (length tr) = 4 * (size (self w) - 1 - p) /\
    Forall (access_within p (size (self w))) tr /\
    Forall (write_within p (size (self w) - 1)) tr.
Proof.
  destruct w as [[vec pos n] ar ci co lg]. unfold stored, typed. simpl.
  intros (Hn & Har & Hvec) -> Hp.
  eexists. eexists. split; [apply del_elem_in_range; lia |]. simpl.
  split; [reflexivity |].
  split; [rewrite length_shift_log; lia |].
  split; [apply shift_log_within; lia | apply shift_log_writes; lia].
Qed.

Lemma del_elem_access_bounds_witness :
  exists (w' : world) (tr : list access),
    del_elem populated = Done (tt, w') /\
    log w' = log populated ++ tr /\
    Z.of_nat (length tr) = 4 * (size (self populated) - 1 - 3) /\
    Forall (access_within 3 (size (self populated))) tr /\
    Forall (write_within 3 (size (self populated) - 1)) tr.
Proof.
  apply (del_elem_access_bounds populated 3 [8]);
    [exact (stored_populated [3; 8]) | reflexivity | simpl; lia].
Defined.

(** X7.  On a non-empty sequence whose stores are in lockstep, [del_elem]
    keeps them in lockstep whatever [int] it works with, in range or not,
    typed or left over at the end of the stream: the call returns, [size]
    drops by 1, and [arr[i] == vector1[i]] still holds on the new valid
    range. *)
Theorem del_elem_keeps_lockstep (w : world) :
  lockstep w -> 1 <= size (self w) <= capacity -> is_int (next_position w) ->
  exists w' : world,
    del_elem w = Done (tt, w') /\
    size (self w') = size (self w) - 1 /\
    lockstep w'.
Proof.
  unfold capacity. intros Hl Hn Hp.
  assert (Ht : typed w) by (unfold typed; lia).
  pose proof (lockstep_stored w Ht Hl) as Hs.
  destruct (del_elem_total w Hs ltac:(lia) Hp) as
    (w' & Hrun & Hsz & _ & Hsnap & Hsnapv & _ & _ & _ & _ & Hs').
  exists w'. split; [exact Hrun |]. split; [exact Hsz |].
  apply lockstep_of_snapshots; [exact Hs' |].
  rewrite Hsnap, Hsnapv, (lockstep_snapshots w Ht Hl). reflexivity.
Qed.

Lemma del_elem_keeps_lockstep_witness :
  exists w' : world,
    del_elem (populated_with [-7]) = Done (tt, w') /\
    size (self w') = size (self (populated_with [-7])) - 1 /\
    lockstep w'.
Proof.
  apply (del_elem_keeps_lockstep (populated_with [-7]));
    [apply lockstep_of_snapshots; [exact (stored_populated [-7]) | reflexivity]
    | unfold capacity; simpl; lia
    | unfold is_int, next_position; simpl; lia].
Defined.

(** X8.  Any [k <= size] calls of [del_elem] in a row are safe on a
    sequence of at most [capacity] elements held by both stores, whatever
    [int]s are typed (and also when the stream runs out): every call
    returns without an access outside the stores, [size] ends [k] lower,
    and the array and the vector keep their lengths. *)
Theorem del_elem_repeated_safe (k : nat) (w : world) :
  stored w -> size (self w) <= capacity -> Z.of_nat k <= size (self w) ->
  Forall is_int (cin w) -> is_int (position (self w)) ->
  exists w' : world,
    repeat_m k del_elem w = Done (tt, w') /\
    size (self w') = size (self w) - Z.of_nat k /\
    cin w' = drop k (cin w) /\
    length (arr w') = length (arr w) /\
    length (vector1 (self w')) = length (vector1 (self w)) /\
    stored w'.
Proof.
  unfold capacity. revert w. induction k as [| k IH]; intros w Hs Hcap Hk Hcin Hpos.
  - exists w. simpl. repeat split; try apply Hs; lia.
  - assert (Hp : is_int (next_position w)) by (apply is_int_hd; assumption).
    destruct (del_elem_total w Hs ltac:(lia) Hp) as
      (w1 & Hrun & Hsz & Hpos1 & _ & _ & Hla & Hlv & Hcin1 & _ & Hs1).
    destruct (IH w1 Hs1) as (w' & Hrun' & Hsz' & Hcin' & Hla' & Hlv' & Hs').
    + lia.
    + lia.
    + rewrite Hcin1. destruct Hcin; [constructor | assumption].
    + rewrite Hpos1. exact Hp.
    + exists w'. rewrite (repeat_m_S _ _ _ _ Hrun).
      split; [exact Hrun' |]. split; [lia |].
      split; [rewrite Hcin', Hcin1; destruct (cin w); [apply drop_nil | reflexivity] |].
      split; [lia |]. split; [lia | exact Hs'].
Qed.

Lemma del_elem_repeated_safe_witness :
  exists w' : world,
    repeat_m 4 del_elem (populated_with [12; -3; 0]) = Done (tt, w') /\
    size (self w') = size (self (populated_with [12; -3; 0])) - Z.of_nat 4 /\
    cin w' = drop 4 (cin (populated_with [12; -3; 0])) /\
    length (arr w') = length (arr (populated_with [12; -3; 0])) /\
    length (vector1 (self w')) = length (vector1 (self (populated_with [12; -3; 0]))) /\
    stored w'.
Proof.
  apply (del_elem_repeated_safe 4 (populated_with [12; -3; 0]));
    [exact (stored_populated _) | unfold capacity; simpl; lia | simpl; lia
    | repeat constructor; unfold is_int; lia | unfold is_int; simpl; lia].
Defined.

(** X9.  [input] is handed the array without its length and trusts it to
    have [size] cells: it returns exactly when the array has at least
    [size] cells, and runs off the end of the array otherwise, whatever
    the stream holds. *)
Theorem input_needs_array (w : world) :
  typed w ->
  (size (self w) <= Z.of_nat (length (arr w)) ->
   exists w' : world, input w = Done (tt, w')) /\
  (Z.of_nat (length (arr w)) < size (self w) -> input w = Undefined).
Proof.
  intros Ht. split.
  - intros Har. destruct w as [[vec pos n] ar ci co lg].
    eexists. apply input_run; [exact Ht | exact Har].
  - apply input_overrun. exact Ht.
Qed.

Lemma input_needs_array_witness :
  (exists w' : world, input (start (replicate 10 0) elems) = Done (tt, w')) /\
  input (start (replicate 9 0) elems) = Undefined.
Proof.
  split.
  - apply (proj1 (input_needs_array (start (replicate 10 0) elems)
                    ltac:(unfold typed; simpl; lia))).
    simpl. lia.
  - apply (proj2 (input_needs_array (start (replicate 9 0) elems)
                    ltac:(unfold typed; simpl; lia))).
    simpl. lia.
Defined.

(** X10.  [input] on any stream of [int]s, long or short, and an array
    of initialised cells: it takes the first [size] integers of the
    stream (all of them if there are fewer), stores them at the front of
    the array and leaves every other cell as it was, then appends the
    first [size] cells of the array to the vector.  It changes neither
    [size] nor [position] and prints nothing.  With an empty stream the
    array is unchanged. *)
Theorem input_any_stream (w : world) :
  typed w -> size (self w) <= Z.of_nat (length (arr w)) ->
  Forall is_int (cin w) ->
  exists w' : world,
    input w = Done (tt, w') /\
    arr w' = take (Z.to_nat (size (self w))) (cin w)
               ++ drop (Z.to_nat (size (self w)) `min` length (cin w)) (arr w) /\
    vector1 (self w') = vector1 (self w) ++ take (Z.to_nat (size (self w))) (arr w') /\
    cin w' = drop (Z.to_nat (size (self w))) (cin w) /\
    size (self w') = size (self w) /\
    position (self w') = position (self w) /\
    cout w' = cout w /\
    (cin w = [] -> arr w' = arr w).
Proof.
  destruct w as [[vec pos n] ar ci co lg]. unfold typed. simpl. intros Hn Har _.
  eexists. split; [apply input_run; lia |]. simpl.
  rewrite fill_any by lia.
  repeat split; try reflexivity.
  intros ->. rewrite take_nil, Nat.min_0_r. reflexivity.
Qed.

Lemma input_any_stream_witness :
  exists w' : world,
    input (populated_with [1; 2; 3]) = Done (tt, w') /\
    arr w' = take (Z.to_nat 10) [1; 2; 3]
               ++ drop (Z.to_nat 10 `min` length [1; 2; 3]) elems /\
    vector1 (self w') = elems ++ take (Z.to_nat 10) (arr w') /\
    cin w' = drop (Z.to_nat 10) [1; 2; 3] /\
    size (self w') = 10 /\
    position (self w') = 0 /\
    cout w' = [] /\
    ([1; 2; 3] = [] -> arr w' = elems).
Proof.
  apply (input_any_stream (populated_with [1; 2; 3]));
    [unfold typed; simpl; lia | simpl; lia | repeat constructor; unfold is_int; lia].
Defined.

(** X11.  A further [input], from a stream of [int]s, on an object whose
    vector already holds its [size] valid elements refreshes the array
    only: the array's valid elements become the new integers, the
    vector's valid elements stay the old ones (the new integers are
    appended behind them), so the two stores are in lockstep afterwards
    only if the new integers equal the old valid elements. *)
Theorem input_again_keeps_vector (w : world) :
  stored w -> size (self w) <= Z.of_nat (length (cin w)) ->
  Forall is_int (cin w) ->
  exists w' : world,
    input w = Done (tt, w') /\
    snapshot w' = take (Z.to_nat (size (self w))) (cin w) /\
    snapshot_vec w' = snapshot_vec w /\
    length (vector1 (self w')) = (length (vector1 (self w)) + Z.to_nat (size (self w)))%nat /\
    (lockstep w' <-> take (Z.to_nat (size (self w))) (cin w) = snapshot_vec w).
Proof.
  intros (Ht & Har & Hvec) Hcin _.
  pose proof (input_full w Ht Har Hcin) as Hrun.
  eexists. split; [exact Hrun |].
  assert (Hlen : length (take (Z.to_nat (size (self w))) (cin w)) = Z.to_nat (size (self w)))
    by (rewrite length_take; lia).
  match type of Hrun with _ = Done (tt, ?w0) => set (w1 := w0) end.
  assert (Hsnap : snapshot w1 = take (Z.to_nat (size (self w))) (cin w)).
  { unfold snapshot, w1. simpl. rewrite take_app_length' by (symmetry; exact Hlen).
    reflexivity. }
  assert (Hsnapv : snapshot_vec w1 = snapshot_vec w).
  { unfold snapshot_vec, w1. simpl. unfold typed in Ht. rewrite take_app_le by lia.
    reflexivity. }
  assert (Ht1 : typed w1) by exact Ht.
  split; [exact Hsnap |]. split; [exact Hsnapv |].
  split; [unfold w1; simpl; rewrite length_app, Hlen; reflexivity |].
  rewrite <- Hsnap, <- Hsnapv. split.
  - apply lockstep_snapshots. exact Ht1.
  - apply lockstep_of_snapshots. unfold stored, typed, w1 in *. simpl.
    rewrite !length_app, length_drop, Hlen. lia.
Qed.

Lemma input_again_keeps_vector_witness :
  exists w' : world,
    input (populated_with [1; 2; 3; 4; 5; 6; 7; 8; 9; 10]) = Done (tt, w') /\
    snapshot w' = take (Z.to_nat 10) [1; 2; 3; 4; 5; 6; 7; 8; 9; 10] /\
    snapshot_vec w' = elems /\
    length (vector1 (self w')) = (length elems + Z.to_nat 10)%nat /\
    (lockstep w' <-> take (Z.to_nat 10) [1; 2; 3; 4; 5; 6; 7; 8; 9; 10] = elems).
Proof.
  apply (input_again_keeps_vector (populated_with [1; 2; 3; 4; 5; 6; 7; 8; 9; 10]));
    [exact (stored_populated _) | simpl; lia | repeat constructor; unfold is_int; lia].
Defined.

(** X12.  [output] returns exactly when both stores hold the [size]
    valid cells; when the array or the vector is shorter than [size]
    (before [input], or after [size] has wrapped around) it reads past
    the end of that store. *)
Theorem output_needs_stores (w : world) :
  typed w ->
  (stored w -> exists w' : world, output w = Done (tt, w')) /\
  (~ stored w -> output w = Undefined).
Proof.
  intros Ht. split.
  - intros Hs. eexists. apply (output_run w Hs).
  - apply output_overrun. exact Ht.
Qed.

Lemma output_needs_stores_witness :
  (exists w' : world, output populated = Done (tt, w')) /\
  output (start (replicate 10 0) elems) = Undefined.
Proof.
  split.
  - apply (proj1 (output_needs_stores populated ltac:(unfold typed; simpl; lia))).
    exact (stored_populated [3; 8]).
  - apply (proj2 (output_needs_stores (start (replicate 10 0) elems)
                    ltac:(unfold typed; simpl; lia))).
    unfold stored. simpl. lia.
Defined.

(** X13.  On the empty sequence ([size = 0]) [del_elem] is never a
    harmless no-op.  [size - 1] wraps to [2 ^ 64 - 1], so every [int]
    position but -1 enters the loop and the call runs off the end of the
    stores; position -1 skips the loop, and the call returns with
    [size = 2 ^ 64 - 1] and both stores untouched. *)
Theorem del_elem_on_empty (w : world) (p : Z) (rest : list Z) :
  size (self w) = 0 -> cin w = p :: rest -> is_int p ->
  Z.of_nat (length (arr w)) < 2 ^ 64 ->
  (p <> -1 -> del_elem w = Undefined) /\
  (p = -1 ->
   exists w' : world,
     del_elem w = Done (tt, w') /\
     size (self w') = 2 ^ 64 - 1 /\
     arr w' = arr w /\ vector1 (self w') = vector1 (self w) /\ log w' = log w).
Proof.
  destruct w as [[vec pos n] ar ci co lg]. unfold is_int. simpl.
  intros -> -> Hp Har.
  assert (Hb : wrap64 (0 - 1) = 2 ^ 64 - 1) by reflexivity.
  split.
  - intros Hne. apply del_elem_overrun; rewrite Hb.
    + destruct (Z.lt_ge_cases p 0).
      * rewrite wrap64_neg by lia. lia.
      * rewrite wrap64_small by lia. lia.
    + lia.
  - intros ->. eexists. split; [apply del_elem_no_shift; rewrite Hb; reflexivity |].
    simpl. repeat split; reflexivity.
Qed.

Lemma del_elem_on_empty_witness :
  del_elem (World (Func elems 0 0) elems [0] [] []) = Undefined /\
  exists w' : world,
    del_elem (World (Func elems 0 0) elems [-1] [] []) = Done (tt, w') /\
    size (self w') = 2 ^ 64 - 1 /\
    arr w' = elems /\ vector1 (self w') = elems /\ log w' = [].
Proof.
  split.
  - apply (proj1 (del_elem_on_empty (World (Func elems 0 0) elems [0] [] []) 0 []
                    eq_refl eq_refl ltac:(unfold is_int; lia) ltac:(simpl; lia))).
    lia.
  - apply (proj2 (del_elem_on_empty (World (Func elems 0 0) elems [-1] [] []) (-1) []
                    eq_refl eq_refl ltac:(unfold is_int; lia) ltac:(simpl; lia))).
    reflexivity.
Defined.

(** X14.  [del_elem] trusts both stores to hold the [size] valid cells:
    at a position in [[0, size - 1)], where at least one shift is due, a
    call on an array or a vector shorter than [size] (for instance before
    [input], when the vector is empty) reads past the end of that
    store. *)
Theorem del_elem_needs_stores (w : world) (p : Z) (rest : list Z) :
  typed w -> cin w = p :: rest -> 0 <= p < size (self w) - 1 ->
  ~ stored w ->
  del_elem w = Undefined.
Proof.
  destruct w as [[vec pos n] ar ci co lg]. unfold stored, typed. simpl.
  intros Hn -> Hp Hns.
  apply del_elem_overrun; rewrite (wrap64_small (n - 1)) by lia.
  - rewrite wrap64_small by lia. lia.
  - lia.
Qed.

Lemma del_elem_needs_stores_witness :
  del_elem (start (replicate 10 0) [3]) = Undefined.
Proof.
  apply (del_elem_needs_stores (start (replicate 10 0) [3]) 3 []);
    [unfold typed; simpl; lia | reflexivity | simpl; lia | unfold stored; simpl; lia].
Defined.

(** X15.  Two removals can be swapped when the later position is
    adjusted: on a sequence held by both stores, removing at [p] and then
    at [q], with [p <= q], leaves the same valid elements, in the array
    and in the vector, as removing at [q + 1] and then at [p]. *)
Theorem removals_commute (w : world) (p q : Z) (rest : list Z) :
  stored w -> 0 <= p <= q -> q + 1 < size (self w) ->
  exists w1 w2 : world,
    repeat_m 2 del_elem (with_cin (p :: q :: rest) w) = Done (tt, w1) /\
    repeat_m 2 del_elem (with_cin (q + 1 :: p :: rest) w) = Done (tt, w2) /\
    snapshot w1 = snapshot w2 /\
    snapshot_vec w1 = snapshot_vec w2 /\
    size (self w1) = size (self w) - 2 /\
    size (self w2) = size (self w) - 2.
Proof.
  intros Hs Hpq Hq.
  destruct (removals_run [p; q] (with_cin (p :: q :: rest) w) rest Hs eq_refl) as
    (w1 & Hrun1 & Hsz1 & Hsnap1 & Hsnapv1 & _).
  { simpl. lia. }
  destruct (removals_run [q + 1; p] (with_cin (q + 1 :: p :: rest) w) rest Hs eq_refl) as
    (w2 & Hrun2 & Hsz2 & Hsnap2 & Hsnapv2 & _).
  { simpl. lia. }
  exists w1, w2. split; [exact Hrun1 |]. split; [exact Hrun2 |].
  rewrite Hsnap1, Hsnap2, Hsnapv1, Hsnapv2. unfold delete_all. simpl foldl.
  replace (Z.to_nat (q + 1)) with (S (Z.to_nat q)) by lia.
  rewrite !(delete_delete _ (Z.to_nat p) (Z.to_nat q)) by lia.
  simpl in Hsz1, Hsz2.
  repeat split; try reflexivity; lia.
Qed.

Lemma removals_commute_witness :
  exists w1 w2 : world,
    repeat_m 2 del_elem (with_cin (2 :: 5 :: []) populated) = Done (tt, w1) /\
    repeat_m 2 del_elem (with_cin (5 + 1 :: 2 :: []) populated) = Done (tt, w2) /\
    snapshot w1 = snapshot w2 /\
    snapshot_vec w1 = snapshot_vec w2 /\
    size (self w1) = size (self populated) - 2 /\
    size (self w2) = size (self populated) - 2.
Proof.
  apply (removals_commute populated 2 5 []);
    [exact (stored_populated [3; 8]) | lia | simpl; lia].
Defined.
